(** * Community embedding notebook (com_emb.ipynb): K-Means, responsibilities, loss and training loop

    The notebook's functions are embedded as Rocq functions over lists.
    Tensors of rank 1 are lists, tensors of rank 2 are lists of rows.
    Python exceptions are values of [exn]; a function that can raise returns
    a [result].  Tensor entries are taken from a [Scalar] interface with two
    instances: IEEE binary floating point (binary32 for [FloatTensor],
    binary64 for the [DoubleTensor] batches of the data loader) and exact
    rationals.  The mixture of scikit-learn, the network, the optimiser,
    [torch.log] and the parsers of numbers are parameters.  They are
    functions of values; of the gradient tracking of autograd only what a
    training step depends on is kept: whether a tensor requires a
    gradient.

    The first part holds the definitions, the second part, Properties, the
    lemmas and theorems. *)

From Stdlib Require Import String Ascii.
From Stdlib Require Import List ZArith QArith Bool Lia Arith PeanoNat.
From Stdlib Require Import SpecFloat Sorted.
Import ListNotations.
Close Scope Q_scope.
Open Scope nat_scope.
Open Scope list_scope.

Set Implicit Arguments.

(** ** Python exceptions and results *)

Inductive exn : Type :=
| NameError (name : string)
| UnboundLocalError (name : string)
| ValueError (msg : string)
| RuntimeError (msg : string)
| IndexError (msg : string)
| KeyError (key : Z).

Inductive result (A : Type) : Type :=
| Ok (a : A)
| Raise (e : exn).

Arguments Ok {A} a.
Arguments Raise {A} e.

Definition bind {A B : Type} (r : result A) (k : A -> result B) : result B :=
  match r with
  | Ok a => k a
  | Raise e => Raise e
  end.

Notation "x <- e ;; k" := (bind e (fun x => k))
  (at level 61, e at next level, right associativity).
Notation "' p <- e ;; k" := (bind e (fun p => k))
  (at level 61, p pattern, e at next level, right associativity).

(** ** Scalars *)

Class Scalar (F : Type) : Type := {
  f0 : F;
  f1 : F;
  fadd : F -> F -> F;
  fsub : F -> F -> F;
  fmul : F -> F -> F;
  fdiv : F -> F -> F;
  fopp : F -> F;
  (** [flt a b] is Python's [a < b]; it is [false] when an operand is NaN. *)
  flt : F -> F -> bool;
  fnan : F -> bool;
  (** A count or a size, converted to the type of the tensor that it is
      combined with. *)
  fcount : nat -> F
}.

(** IEEE binary floating point, from the Standard Library's specification
    of floats; [prec] and [emax] select the format. *)

Definition SF_is_nan (x : spec_float) : bool :=
  match x with S754_nan => true | _ => false end.

(** Rounds a float of any format to the format [prec], [emax]. *)
Definition SF_round (prec emax : Z) (x : spec_float) : spec_float :=
  match x with
  | S754_finite s m e => binary_round prec emax s m e
  | _ => x
  end.

(** [torch.bincount(cl).float()] is a binary32 tensor whatever the type of
    the data; it is promoted to the data's format when the two are mixed. *)
Definition SF_count (prec emax : Z) (n : nat) : spec_float :=
  SF_round prec emax (binary_normalize 24 128 (Z.of_nat n) 0 false).

Definition ieee (prec emax : Z) : Scalar spec_float := {|
  f0 := S754_zero false;
  f1 := SFone prec emax;
  fadd := SFadd prec emax;
  fsub := SFsub prec emax;
  fmul := SFmul prec emax;
  fdiv := SFdiv prec emax;
  fopp := SFopp;
  flt := SFltb;
  fnan := SF_is_nan;
  fcount := SF_count prec emax
|}.

Definition binary32 : Scalar spec_float := ieee 24 128.


(** Exact rational arithmetic, without NaN.  A quotient by zero has no
    value in exact arithmetic; [Qdiv] makes it 0, and the properties stated
    for this instance do not depend on such quotients. *)
Definition exact : Scalar Q := {|
  f0 := 0%Q;
  f1 := 1%Q;
  fadd := Qplus;
  fsub := Qminus;
  fmul := Qmult;
  fdiv := Qdiv;
  fopp := Qopp;
  flt := fun a b => negb (Qle_bool b a);
  fnan := fun _ => false;
  fcount := fun n => inject_Z (Z.of_nat n)
|}.

(** ** Tensors *)

Definition matrix (F : Type) : Type := list (list F).

Section Tensors.
Context {F : Type} {SF : Scalar F}.

(** Number of columns, the second entry of [x.shape]. *)
Definition ncols (x : matrix F) : nat :=
  match x with
  | [] => 0
  | r :: _ => length r
  end.

(** [x[:, d]] *)
Definition col (x : matrix F) (d : nat) : list F :=
  map (fun r => nth d r f0) x.

(** [torch.sum] of a tensor of rank 1, accumulated from the left. *)
Definition tsum (l : list F) : F := fold_left fadd l f0.

(** [torch.min] and [torch.max] of all entries; both propagate NaN and
    raise on an empty tensor. *)
Definition fmin2 (a b : F) : F :=
  if fnan a then a else if fnan b then b else if flt b a then b else a.

Definition fmax2 (a b : F) : F :=
  if fnan a then a else if fnan b then b else if flt a b then b else a.

Definition tmin (v : list F) : result F :=
  match v with
  | [] => Raise (RuntimeError "min(): cannot reduce an empty tensor")
  | a :: l => Ok (fold_left fmin2 l a)
  end.

Definition tmax (v : list F) : result F :=
  match v with
  | [] => Raise (RuntimeError "max(): cannot reduce an empty tensor")
  | a :: l => Ok (fold_left fmax2 l a)
  end.

(** ** normalize

    The parameter is [v]; the [else] branch reads the name [vector], which
    is bound neither in the function nor at the top level of the notebook,
    so evaluating [vector.size()] raises [NameError]. *)
Definition normalize (v : matrix F) : result (matrix F) :=
  min_v <- tmin (concat v) ;;
  max_v <- tmax (concat v) ;;
  let range_v := fsub max_v min_v in
  if flt f0 range_v
  then Ok (map (map (fun a => fdiv (fsub a min_v) range_v)) v)
  else Raise (NameError "vector").

(** ** argmin along dim 1

    [better a b]: entry [a] replaces the current best [b].  NaN counts as
    smaller than every number, and an equal entry never replaces an
    earlier one. *)
Definition better (a b : F) : bool :=
  negb (fnan b) && (fnan a || flt a b).

(** Scans [l], whose first entry has index [i]; [bi] and [bv] are the
    index and value of the best entry so far. *)
Fixpoint argmin_from (l : list F) (i bi : nat) (bv : F) : nat :=
  match l with
  | [] => bi
  | a :: l' =>
      if better a bv then argmin_from l' (S i) i a
      else argmin_from l' (S i) bi bv
  end.

Definition argmin (row : list F) : result nat :=
  match row with
  | [] => Raise (IndexError "argmin(): expected reduction dim 1 to have non-zero size")
  | a :: l => Ok (argmin_from l 1 0 a)
  end.

Fixpoint argmin_rows (m : matrix F) : result (list nat) :=
  match m with
  | [] => Ok []
  | r :: m' =>
      i <- argmin r ;;
      rest <- argmin_rows m' ;;
      Ok (i :: rest)
  end.

(** [t.argmin(dim=1)] for a tensor [t] with [k] columns: the reduced
    dimension must not be empty, also when [t] has no row. *)
Definition argmin_dim1 (k : nat) (t : matrix F) : result (list nat) :=
  if Nat.eqb k 0
  then Raise (IndexError "argmin(): expected reduction dim 1 to have non-zero size")
  else argmin_rows t.

(** ** bincount *)

(** [torch.bincount(cl)] has [max(cl) + 1] entries, none for empty [cl]. *)
Definition nbins (cl : list nat) : nat :=
  match cl with
  | [] => 0
  | _ => S (fold_right Nat.max 0 cl)
  end.

Definition bincount (cl : list nat) : list nat :=
  map (fun b => count_occ Nat.eq_dec cl b) (seq 0 (nbins cl)).

(** Sum of the weights of the samples labelled [b], in sample order. *)
Fixpoint bin_weight (b : nat) (cl : list nat) (w : list F) (acc : F) : F :=
  match cl, w with
  | k :: cl', a :: w' =>
      bin_weight b cl' w' (if Nat.eqb k b then fadd acc a else acc)
  | _, _ => acc
  end.

Definition bincount_weights (cl : list nat) (w : list F) : list F :=
  map (fun b => bin_weight b cl w f0) (seq 0 (nbins cl)).

(** ** Assignment to a column, [c[:, d] = t]

    [t] must have as many entries as [c] has rows, or a single entry,
    which is broadcast. *)
Definition set_nth (r : list F) (d : nat) (a : F) : list F :=
  firstn d r ++ match skipn d r with [] => [] | _ :: tl => a :: tl end.

Definition assign_col (c : matrix F) (d : nat) (t : list F) : result (matrix F) :=
  if Nat.eqb (length t) (length c)
  then Ok (map (fun rt => set_nth (fst rt) d (snd rt)) (combine c t))
  else match t with
       | [a] => Ok (map (fun r => set_nth r d a) c)
       | _ => Raise (RuntimeError "shape mismatch: value tensor cannot be broadcast to indexing result")
       end.

(** Elementwise quotient of two tensors of rank 1 and equal length. *)
Definition tdiv (a b : list F) : list F :=
  map (fun p => fdiv (fst p) (snd p)) (combine a b).

(** ** KMeans *)

(** [((x_i - c_j) ** 2).sum(-1)] *)
Definition sqdist (xi cj : list F) : F :=
  tsum (map (fun p => let t := fsub (fst p) (snd p) in fmul t t) (combine xi cj)).

Definition distances (x c : matrix F) : matrix F :=
  map (fun xi => map (fun cj => sqdist xi cj) c) x.

(** The loop [for d in range(D)] over the columns [ds]. *)
Fixpoint update_centroids (x c : matrix F) (cl : list nat) (Ncl : list F)
    (ds : list nat) : result (matrix F) :=
  match ds with
  | [] => Ok c
  | d :: ds' =>
      c' <- assign_col c d (tdiv (bincount_weights cl (col x d)) Ncl) ;;
      update_centroids x c' cl Ncl ds'
  end.

(** One pass of the K-means loop: labels, soft affinities, new centroids. *)
Definition kmeans_iter (x c : matrix F)
  : result (list nat * matrix F * matrix F) :=
  let D_ij := distances x c in
  cl <- argmin_dim1 (length c) D_ij ;;
  nz <- normalize D_ij ;;
  let pi := map (map (fun a => fsub f1 a)) nz in
  let Ncl := map fcount (bincount cl) in
  c' <- update_centroids x c cl Ncl (seq 0 (ncols x)) ;;
  Ok (cl, pi, c').

(** [last] holds [cl, pi] of the previous pass; they are unbound before the
    first one. *)
Fixpoint kmeans_loop (Niter : nat) (x c : matrix F)
    (last : option (list nat * matrix F)) : result (list nat * matrix F) :=
  match Niter with
  | O =>
      match last with
      | Some r => Ok r
      | None => Raise (UnboundLocalError "cl")
      end
  | S n =>
      '(cl, pi, c') <- kmeans_iter x c ;;
      kmeans_loop n x c' (Some (cl, pi))
  end.

Definition KMeans (x : matrix F) (K : nat) (Niter : nat)
  : result (list nat * matrix F) :=
  kmeans_loop Niter x (firstn K x) None.

(** ** Broadcasting of two tensors of rank 2 *)

Definition bdim (a b : nat) : result nat :=
  if Nat.eqb a b then Ok a
  else if Nat.eqb a 1 then Ok b
  else if Nat.eqb b 1 then Ok a
  else Raise (RuntimeError "the size of tensor a must match the size of tensor b").

Definition expand_row (n : nat) (r : list F) : list F :=
  if Nat.eqb (length r) n then r else repeat (hd f0 r) n.

Definition expand (rows cols : nat) (A : matrix F) : matrix F :=
  let A' := map (expand_row cols) A in
  if Nat.eqb (length A') rows then A' else repeat (hd [] A') rows.

Definition zip_with (f : F -> F -> F) (a b : list F) : list F :=
  map (fun p => f (fst p) (snd p)) (combine a b).

Definition broadcast2 (f : F -> F -> F) (A B : matrix F) : result (matrix F) :=
  rows <- bdim (length A) (length B) ;;
  cols <- bdim (ncols A) (ncols B) ;;
  Ok (map (fun p => zip_with f (fst p) (snd p))
          (combine (expand rows cols A) (expand rows cols B))).

(** [torch.sum(t, dim=1, keepdim=True)] *)
Definition sum_dim1 (t : matrix F) : matrix F :=
  map (fun r => [tsum r]) t.

(** [t.sum(dim=0, keepdim=True)] *)
Definition sum_dim0 (t : matrix F) : matrix F :=
  [map (fun k => tsum (col t k)) (seq 0 (ncols t))].

(** ** compute_gamma *)
Definition compute_gamma (pi probs : matrix F) : result (matrix F) :=
  gamma_numerator <- broadcast2 fmul pi probs ;;
  let gamma_denominator := sum_dim1 gamma_numerator in
  broadcast2 fdiv gamma_numerator gamma_denominator.

End Tensors.

(** ** The loss *)

Section Loss.
Context {F : Type} {SF : Scalar F}.

(** The constants of the notebook, [torch.log], and the fitted mixture
    [gmm]: an object with state of type [G], mutated by [fit]. *)
Variables (K : nat) (eps beta : F).
Variable flog : F -> F.
Variable G : Type.
Variable predict_proba : G -> matrix F -> result (matrix F).
Variable fit : G -> matrix F -> result G.
Variables means_ covariances_ : G -> matrix F.

(** [.clamp(min=eps)] *)
Definition clamp_min (m : matrix F) : matrix F :=
  map (map (fun a => if flt a eps then eps else a)) m.

(** The last statement of [compute_loss], from the new mixing weights
    [pi] and the clamped posteriors. *)
Definition loss_of (pi probs : matrix F) : result F :=
  t <- broadcast2 fmul pi probs ;;
  Ok (fmul (fopp (fdiv beta (fcount K)))
           (tsum (concat (sum_dim1 (map (map flog) t))))).

(** Returns [psi, Sigma, loss] and the state of [gmm] after the call. *)
Definition compute_loss (model : matrix F -> matrix F) (gmm : G)
    (X_batch pi psi Sigma : matrix F)
  : result (matrix F * matrix F * F * G) :=
  let X := model X_batch in
  p <- predict_proba gmm X ;;
  let probs := clamp_min p in
  gamma <- compute_gamma pi probs ;;
  let N := sum_dim0 gamma in
  let pi := map (map (fun a => fdiv a (fcount (length X_batch)))) N in
  gmm' <- fit gmm X ;;
  let psi := means_ gmm' in
  let Sigma := covariances_ gmm' in
  loss <- loss_of pi probs ;;
  Ok (psi, Sigma, loss, gmm').

(** [reset_embeddings]: [gmm_new] is the mixture as constructed by
    [mixture.GaussianMixture(n_components=K, covariance_type='diag')]. *)
Variable gmm_new : G.

Definition reset_embeddings (X_batch : matrix F)
  : result (matrix F * matrix F * G) :=
  gmm <- fit gmm_new X_batch ;;
  Ok (means_ gmm, covariances_ gmm, gmm).

End Loss.

(** ** The training loop *)

Section Training.
(** [FD] is the type of the entries of the batches drawn by the data
    loader, [F] the type of [FloatTensor] entries; [to_float] is
    [Tensor.float()] on one entry. *)
Context {FD : Type} {SD : Scalar FD} {F : Type} {SF : Scalar F}.
Variable to_float : FD -> F.

Variables (K batch_size num_epochs : nat) (eps beta : F).
Variable flog : F -> F.
Variable G : Type.
Variable predict_proba : G -> matrix F -> result (matrix F).
Variable fit : G -> matrix F -> result G.
Variables means_ covariances_ : G -> matrix F.

(** The network: its parameters, the forward pass, and the effect of
    [loss.backward(); opt.step(); opt.zero_grad()] on the parameters. *)
Variable Theta : Type.
Variable forward : Theta -> matrix F -> matrix F.
Variable sgd_step : Theta -> matrix F -> F -> Theta.

(** Whether the output of the network requires a gradient, as it does
    when the network has parameters; the notebook's [nn.Sequential] has. *)
Variable requires_grad : bool.

(** [dataset] is the ordered dictionary built by [skipgram2dict];
    [sampler epoch] is the order in which the data loader draws the
    indices [0 .. len(dataset) - 1] in that epoch. *)
Variable dataset : list (Z * list FD).
Variable sampler : nat -> list nat.

Fixpoint chunks_fuel (fuel : nat) (l : list nat) : list (list nat) :=
  match fuel with
  | O => []
  | S fuel' =>
      match l with
      | [] => []
      | _ => firstn batch_size l :: chunks_fuel fuel' (skipn batch_size l)
      end
  end.

(** The index batches of one epoch: consecutive groups of [batch_size]
    indices, the last one possibly smaller. *)
Definition batch_indices (epoch : nat) : list (list nat) :=
  chunks_fuel (length dataset) (sampler epoch).

(** [dataset[i]] *)
Fixpoint getitem (d : list (Z * list FD)) (i : Z) : result (list FD) :=
  match d with
  | [] => Raise (KeyError i)
  | (k, v) :: d' => if Z.eqb k i then Ok v else getitem d' i
  end.

(** The data loader fetches [dataset[i]] for every index of a batch and
    stacks the rows. *)
Fixpoint fetch (idx : list nat) : result (matrix FD) :=
  match idx with
  | [] => Ok []
  | i :: idx' =>
      r <- getitem dataset (Z.of_nat i) ;;
      rest <- fetch idx' ;;
      Ok (r :: rest)
  end.

Record train_state : Type := {
  params : Theta;
  gmm : G;
  psi : matrix F;
  Sigma : matrix F;
  train_loss : list F;
  printed : list F
}.

(** [X.numpy()] on the output of the network: numpy refuses a tensor that
    requires a gradient. *)
Definition numpy (X : matrix F) : result (matrix F) :=
  if requires_grad
  then Raise (RuntimeError "Can't call numpy() on Tensor that requires grad")
  else Ok X.

(** Whether [loss] requires a gradient.  [compute_loss] builds it from
    [pi], which [KMeans] derives from the batch of the data loader, and
    from [probs], which [torch.FloatTensor] builds from the array returned
    by [predict_proba]; the output of the network enters it in no other
    way.  Neither requires a gradient, so [loss] does not and has no
    [grad_fn]. *)
Definition loss_requires_grad : bool := false.

(** [loss.backward(retain_graph=True)], on a tensor that requires a
    gradient or not. *)
Definition backward (tracked : bool) : result unit :=
  if tracked then Ok tt
  else Raise (RuntimeError "element 0 of tensors does not require grad and does not have a grad_fn").

(** The body of the loop over the batches.  [predict_proba] is given the
    output of the network as it is, and what it does with it is the
    mixture's; [gmm.fit] is given [X.numpy()]; [opt.step()] and
    [train_loss.append] come after [loss.backward]. *)
Definition train_step (s : train_state) (X_batch : matrix FD)
  : result train_state :=
  '(l, pi) <- KMeans X_batch K 10 ;;
  '(psi', Sigma', loss, gmm') <-
    compute_loss K eps beta flog predict_proba
      (fun g X => data <- numpy X ;; fit g data)
      means_ covariances_
      (forward (params s)) (gmm s)
      (map (map to_float) X_batch) (map (map to_float) pi)
      (psi s) (Sigma s) ;;
  u <- backward loss_requires_grad ;;
  Ok {| params := sgd_step (params s) (map (map to_float) X_batch) loss;
        gmm := gmm';
        psi := psi';
        Sigma := Sigma';
        train_loss := train_loss s ++ [loss];
        printed := printed s |}.

Fixpoint run_batches (s : train_state) (bs : list (list nat))
  : result train_state :=
  match bs with
  | [] => Ok s
  | b :: bs' =>
      X_batch <- fetch b ;;
      s' <- train_step s X_batch ;;
      run_batches s' bs'
  end.

(** [l[start:]] for a list [l] and an integer [start]. *)
Definition slice_from {A : Type} (start : Z) (l : list A) : list A :=
  let n := Z.of_nat (length l) in
  let i := if (start <? 0)%Z then Z.max (n + start) 0 else Z.min start n in
  skipn (Z.to_nat i) l.

(** [np.mean] *)
Definition np_mean (l : list F) : F :=
  fdiv (tsum l) (fcount (length l)).

(** [np.mean(train_loss[-len(dataset) // batch_size :])]: the unary minus
    binds tighter than [//], which rounds towards minus infinity. *)
Definition epoch_metric (tl : list F) : F :=
  np_mean (slice_from (Z.div (- Z.of_nat (length dataset)) (Z.of_nat batch_size)) tl).

Definition run_epoch (s : train_state) (epoch : nat) : result train_state :=
  s' <- run_batches s (batch_indices epoch) ;;
  Ok {| params := params s';
        gmm := gmm s';
        psi := psi s';
        Sigma := Sigma s';
        train_loss := train_loss s';
        printed := printed s' ++ [epoch_metric (train_loss s')] |}.

Fixpoint run_epochs (s : train_state) (epochs : list nat) : result train_state :=
  match epochs with
  | [] => Ok s
  | e :: es =>
      s' <- run_epoch s e ;;
      run_epochs s' es
  end.

(** The training cell, from the state [s0] left by the cells before it. *)
Definition train (s0 : train_state) : result train_state :=
  run_epochs s0 (seq 0 num_epochs).

End Training.

(** ** Loading the embedding file *)

Section Loading.
Context {FD : Type} {F : Type}.
Variable to_float : FD -> F.

(** Python's [int] and numpy's conversion of a string to a float. *)
Variable py_int : string -> option Z.
Variable np_float : string -> option FD.

(** [s.split(" ")] *)
Fixpoint split_space (s : string) : list string :=
  match s with
  | EmptyString => [EmptyString]
  | String c s' =>
      if Ascii.eqb c " "%char then EmptyString :: split_space s'
      else match split_space s' with
           | [] => [String c EmptyString]
           | w :: ws => String c w :: ws
           end
  end.

(** [s.split(" ", 1)] *)
Fixpoint split_once (s : string) : string * option string :=
  match s with
  | EmptyString => (EmptyString, None)
  | String c s' =>
      if Ascii.eqb c " "%char then (EmptyString, Some s')
      else let (a, r) := split_once s' in (String c a, r)
  end.

Definition split_space_1 (s : string) : list string :=
  match split_once s with
  | (a, None) => [a]
  | (a, Some b) => [a; b]
  end.

Fixpoint parse_floats (ws : list string) : result (list FD) :=
  match ws with
  | [] => Ok []
  | w :: ws' =>
      match np_float w with
      | None => Raise (ValueError "could not convert string to float")
      | Some a => rest <- parse_floats ws' ;; Ok (a :: rest)
      end
  end.

(** ** vectorize *)
Definition vectorize (row : string) : result (list FD) :=
  parse_floats (split_space row).

(** Assignment to a key of a [dict]: a key already present keeps its
    place and takes the new value, a new key goes last. *)
Fixpoint dict_set {A B : Type} (eqb : A -> A -> bool) (k : A) (v : B)
    (d : list (A * B)) : list (A * B) :=
  match d with
  | [] => [(k, v)]
  | (k', v') :: d' =>
      if eqb k' k then (k, v) :: d' else (k', v') :: dict_set eqb k v d'
  end.

(** [dict(...)] of a sequence of lists, each of which must have two
    entries. *)
Fixpoint dict_of_pairs (rows : list (list string)) (d : list (string * string))
  : result (list (string * string)) :=
  match rows with
  | [] => Ok d
  | [k; v] :: rows' => dict_of_pairs rows' (dict_set String.eqb k v d)
  | _ :: _ => Raise (ValueError "dictionary update sequence element has the wrong length; 2 is required")
  end.

(** [{int(num): vectorize(v) for num, v in d.items()}] *)
Fixpoint convert_items (items : list (string * string)) (d : list (Z * list FD))
  : result (list (Z * list FD)) :=
  match items with
  | [] => Ok d
  | (num, v) :: items' =>
      match py_int num with
      | None => Raise (ValueError "invalid literal for int() with base 10")
      | Some k =>
          vec <- vectorize v ;;
          convert_items items' (dict_set Z.eqb k vec d)
      end
  end.

(** [sorted(d.items())] for a [dict], whose keys are distinct: insertion
    sort on the keys. *)
Fixpoint insert_sorted {B : Type} (kv : Z * B) (l : list (Z * B)) : list (Z * B) :=
  match l with
  | [] => [kv]
  | kv' :: l' =>
      if (fst kv <=? fst kv')%Z then kv :: l else kv' :: insert_sorted kv l'
  end.

Definition sorted_items {B : Type} (d : list (Z * B)) : list (Z * B) :=
  fold_right insert_sorted [] d.

(** ** skipgram2dict *)
Definition skipgram2dict (skipgram : list string) : result (list (Z * list FD)) :=
  d <- dict_of_pairs (map split_space_1 skipgram) [] ;;
  d' <- convert_items d [] ;;
  Ok (sorted_items d').

(** [torch.FloatTensor] of a list of arrays, which must have one length. *)
Definition FloatTensor (rows : list (list FD)) : result (matrix F) :=
  match rows with
  | [] => Ok []
  | r :: rows' =>
      if forallb (fun r' => Nat.eqb (length r') (length r)) rows'
      then Ok (map (map to_float) rows)
      else Raise (ValueError "expected sequence of the same length at dim 1")
  end.

(** The cell that reads the file: [lines] is [f.readlines()]; the first
    line is popped.  Returns [dataset] and [x]. *)
Definition load_embeddings (lines : list string)
  : result (list (Z * list FD) * matrix F) :=
  match lines with
  | [] => Raise (IndexError "pop from empty list")
  | _ :: skipgram =>
      dataset <- skipgram2dict skipgram ;;
      x <- FloatTensor (map snd dataset) ;;
      Ok (dataset, x)
  end.

End Loading.


(** ** The notebook, from the embedding file to the end of training *)

Section Notebook.
Context {FD : Type} {SD : Scalar FD} {F : Type} {SF : Scalar F}.
Variable to_float : FD -> F.
Variable py_int : string -> option Z.
Variable np_float : string -> option FD.
Variables (K batch_size num_epochs : nat) (eps beta : F).
Variable flog : F -> F.
Variable G : Type.
Variable predict_proba : G -> matrix F -> result (matrix F).
Variable fit : G -> matrix F -> result G.
Variables means_ covariances_ : G -> matrix F.
Variable gmm_new : G.
Variable Theta : Type.
Variable forward : Theta -> matrix F -> matrix F.
Variable sgd_step : Theta -> matrix F -> F -> Theta.
Variable requires_grad : bool.
Variable sampler : nat -> list nat.

(** [lines] is the content of the embedding file, [theta0] the initial
    parameters of the network.  [DataLoader] refuses a batch size that is
    not positive. *)
Definition notebook (lines : list string) (theta0 : Theta)
  : result (@train_state F G Theta) :=
  '(dataset, x) <- load_embeddings to_float py_int np_float lines ;;
  if Nat.eqb batch_size 0
  then Raise (ValueError "batch_size should be a positive integer value")
  else
    '(psi, Sigma, gmm) <- reset_embeddings fit means_ covariances_ gmm_new x ;;
    train to_float K batch_size num_epochs eps beta flog predict_proba fit
      means_ covariances_ forward sgd_step requires_grad dataset sampler
      {| params := theta0; gmm := gmm; psi := psi; Sigma := Sigma;
         train_loss := []; printed := [] |}.

End Notebook.

(** ** Laws of the comparison *)

(** [flt] is a strict weak order on the numbers and is [false] on NaN. *)
Class ScalarOrder (F : Type) {SF : Scalar F} : Prop := {
  flt_nan_l : forall a b, fnan a = true -> flt a b = false;
  flt_nan_r : forall a b, fnan b = true -> flt a b = false;
  flt_irrefl : forall a, flt a a = false;
  flt_trans : forall a b c, flt a b = true -> flt b c = true -> flt a c = true;
  flt_negtrans : forall a b c,
    fnan a = false -> fnan b = false -> fnan c = false ->
    flt a b = false -> flt b c = false -> flt a c = false
}.

(** Position of a float that is not NaN in the order of [SFcompare]: the
    class (infinities, sign, zero), then exponent and mantissa. *)
Definition SF_key (x : spec_float) : Z * Z * Z :=
  match x with
  | S754_nan => (0, 0, 0)
  | S754_zero _ => (0, 0, 0)
  | S754_infinity true => (-2, 0, 0)
  | S754_infinity false => (2, 0, 0)
  | S754_finite true m e => (-1, - e, Zneg m)
  | S754_finite false m e => (1, e, Zpos m)
  end%Z.

Definition key_lt (p q : Z * Z * Z) : Prop :=
  match p, q with
  | (a, b, c), (a', b', c') =>
      (a < a' \/ (a = a' /\ (b < b' \/ (b = b' /\ c < c'))))%Z
  end.

(** ** The minimum of a row *)

Section RowMinimum.
Context {F : Type} {SF : Scalar F}.

(** [tlt a b]: [a] comes strictly before [b] in the order that
    [torch.min] uses, in which NaN comes before every number. *)
Definition tlt (a b : F) : Prop :=
  fnan b = false /\ (fnan a = true \/ flt a b = true).

(** [first_min row i]: entry [i] of [row] is a minimum of the row, and
    every entry before it is strictly larger. *)
Definition first_min (row : list F) (i : nat) : Prop :=
  i < length row /\
  (forall j, j < length row -> ~ tlt (nth j row f0) (nth i row f0)) /\
  (forall j, j < i -> tlt (nth i row f0) (nth j row f0)).

End RowMinimum.

(** ** Inputs used in examples *)

(** An integer as a binary32 and as a binary64 float. *)
Definition z32 (z : Z) : spec_float := binary_normalize 24 128 z 0 false.

(** Three points on a line, the first two equal. *)
Definition batch_005 : matrix spec_float := [[z32 0]; [z32 0]; [z32 5]].

(** Three points on a line, the first two equal, for two clusters. *)
Definition batch_001 : matrix spec_float := [[z32 0]; [z32 0]; [z32 1]].

(** ** Empty clusters *)

(** The statement that a pass of the K-means loop leaves NaN in every
    coordinate of the centroid of every cluster without members. *)
Definition empty_cluster_nan_claim (F : Type) (SF : Scalar F) : Prop :=
  forall (x c c' : matrix F) (cl : list nat) (pi : matrix F) (j d : nat),
    kmeans_iter x c = Ok (cl, pi, c') ->
    j < length c -> length (nth j c []) = ncols x ->
    ~ In j cl ->
    d < ncols x ->
    fnan (nth d (nth j c' []) f0) = true.

(** A batch of three equal points. *)
Definition batch_equal : matrix spec_float :=
  [[z32 1; z32 2]; [z32 1; z32 2]; [z32 1; z32 2]].

(** ** Shapes *)

(** [rect M K A]: [A] has [M] rows of [K] entries. *)
Definition rect {F : Type} (M K : nat) (A : matrix F) : Prop :=
  length A = M /\ Forall (fun r => length r = K) A.

(** ** Rows of gamma *)

Section GammaClaims.
Context {F : Type} {SF : Scalar F}.




End GammaClaims.


(** ** Denominators of gamma *)

Section DenominatorClaim.
Context {FD : Type} {SD : Scalar FD} {F : Type} {SF : Scalar F}.
Variable to_float : FD -> F.



End DenominatorClaim.







(** ** The loss, as the specification words it *)

Section LossFormula.
Context {F : Type} {SF : Scalar F}.
Variables (K : nat) (eps beta : F).
Variable flog : F -> F.

(** Entry [k] of row [i]. *)
Definition entry (A : matrix F) (i k : nat) : F := nth k (nth i A []) f0.

(** The updated mixing weight of component [k]: [N_k / M], where [N_k] is
    the sum of column [k] of gamma over the [M] samples. *)
Definition mixing_weight (M : nat) (gamma : matrix F) (k : nat) : F :=
  fdiv (tsum (map (fun i => entry gamma i k) (seq 0 M))) (fcount M).

(** [-(beta / K)] times the sum, over the [M] samples and the [Kc]
    components, of [log (pi_k * probs[i][k])]. *)
Definition loss_formula (M Kc : nat) (gamma probs : matrix F) : F :=
  fmul (fopp (fdiv beta (fcount K)))
    (tsum (map (fun i =>
             tsum (map (fun k =>
                     flog (fmul (mixing_weight M gamma k) (entry probs i k)))
                   (seq 0 Kc)))
           (seq 0 M))).

(** What [compute_loss] computes from the clamped posteriors [probs] of a
    batch of [M] samples: gamma, the new mixing weights, the loss. *)
Definition loss_from_posteriors (M : nat) (pi probs : matrix F) : result F :=
  gamma <- compute_gamma pi probs ;;
  let N := sum_dim0 gamma in
  let pi' := map (map (fun a => fdiv a (fcount M))) N in
  loss_of K beta flog pi' probs.

End LossFormula.

(** ** Order of the refit and the posteriors *)

Section RefitClaim.
Context {F : Type} {SF : Scalar F}.
Variables (K : nat) (eps beta : F).
Variable flog : F -> F.
Variable G : Type.
Variable predict_proba : G -> matrix F -> result (matrix F).
Variable fit : G -> matrix F -> result G.
Variables means_ covariances_ : G -> matrix F.

(** The statement that the posteriors [p] that enter gamma and the loss of
    a step are those of the mixture [gmm'] as refit in that step. *)
Definition refit_before_posteriors_claim : Prop :=
  forall (model : matrix F -> matrix F) (gmm gmm' : G)
         (X_batch pi psi Sigma psi' Sigma' p : matrix F) (loss : F),
    compute_loss K eps beta flog predict_proba fit means_ covariances_
      model gmm X_batch pi psi Sigma = Ok (psi', Sigma', loss, gmm') ->
    predict_proba gmm (model X_batch) = Ok p ->
    predict_proba gmm' (model X_batch) = Ok p.

End RefitClaim.

(** ** A mixture for the examples

    Two components on the first coordinate of the data.  [fit] puts their
    means at the smallest and the largest sample; the posterior of a
    component is proportional to [1 / (1 + (x - mean)^2)]. *)

Record toy_gmm : Type := { mean0 : Q; mean1 : Q }.

Definition toy_weight (m x : Q) : Q := (1 / (1 + (x - m) * (x - m)))%Q.

Definition toy_predict_proba (g : toy_gmm) (X : matrix Q) : result (matrix Q) :=
  Ok (map (fun r =>
             let x := hd 0%Q r in
             let w0 := toy_weight (mean0 g) x in
             let w1 := toy_weight (mean1 g) x in
             [Qred (w0 / (w0 + w1)); Qred (w1 / (w0 + w1))]) X).

Definition toy_fit (g : toy_gmm) (X : matrix Q) : result toy_gmm :=
  match @col Q exact X 0 with
  | [] => Raise (ValueError "Expected n_samples >= n_components")
  | a :: l =>
      Ok {| mean0 := fold_left (@fmin2 Q exact) l a;
            mean1 := fold_left (@fmax2 Q exact) l a |}
  end.

Definition toy_means (g : toy_gmm) : matrix Q := [[mean0 g]; [mean1 g]].
Definition toy_covariances (g : toy_gmm) : matrix Q := [[1]; [1]]%Q.

(** The examples use this rational function in the place of [torch.log];
    the theorems hold for every function. *)
Definition log_stub (a : Q) : Q := (a - 1)%Q.

(** A batch of three points on a line, and a mixture fitted on other
    data. *)
Definition batch_line : matrix Q := [[1]; [2]; [4]]%Q.
Definition gmm_before : toy_gmm := {| mean0 := 0; mean1 := 10 |}.

(** ** The calls of compute_loss in the examples

    Exact arithmetic, two clusters, the toy mixture and a network that
    returns its input. *)

Definition toy_eps : Q := (1 # 1000000)%Q.
Definition toy_beta : Q := (1 # 10000)%Q.

Definition toy_compute_loss (gmm : toy_gmm) (X_batch pi : matrix Q)
  : result (matrix Q * matrix Q * Q * toy_gmm) :=
  @compute_loss Q exact 2 toy_eps toy_beta log_stub toy_gmm
    toy_predict_proba toy_fit toy_means toy_covariances
    (fun X => X) gmm X_batch pi (toy_means gmm) (toy_covariances gmm).


(** The soft affinities of [KMeans batch_line 2] and the posteriors of
    [gmm_before] on [batch_line]. *)
Definition affinities_line : matrix Q :=
  [[35 # 36; 0 # 9]; [35 # 36; 5 # 9]; [11 # 36; 9 # 9]]%Q.

Definition posteriors_line : matrix Q :=
  [[41 # 42; 1 # 42]; [13 # 14; 1 # 14]; [37 # 54; 17 # 54]]%Q.

Definition gmm_line : toy_gmm := {| mean0 := 1; mean1 := 4 |}.

(** The loss of the step on [batch_line]. *)
Definition loss_line : Q :=
  match toy_compute_loss gmm_before batch_line affinities_line with
  | Ok (_, _, loss, _) => loss
  | Raise _ => 0%Q
  end.

Definition toy_state0 : @train_state Q toy_gmm unit :=
  {| params := tt; gmm := gmm_before;
     psi := toy_means gmm_before; Sigma := toy_covariances gmm_before;
     train_loss := []; printed := [] |}.

(** A second batch, the mixture after the call of [compute_loss] on it,
    and the loss of that call on the mixture left by the call on
    [batch_line]. *)
Definition batch_next : matrix Q := [[0]; [3]; [5]]%Q.

Definition gmm_next : toy_gmm := {| mean0 := 0; mean1 := 5 |}.

Definition loss_next : Q :=
  match toy_compute_loss gmm_line batch_next affinities_line with
  | Ok (_, _, loss, _) => loss
  | Raise _ => 0%Q
  end.

(** ** The reported metric *)

(** [ceil (n / b)] *)
Definition ceil_div (n b : nat) : nat := (n + b - 1) / b.

(** A data set of five points in the plane, visited in the order of their
    keys, and a list of recorded losses. *)
Definition toy_dataset : list (Z * list Q) :=
  [(0%Z, [0; 0]%Q); (1%Z, [0; 1]%Q); (2%Z, [1; 1]%Q); (3%Z, [2; 0]%Q);
   (4%Z, [3; 5]%Q)].

Definition toy_sampler (epoch : nat) : list nat := [0; 1; 2; 3; 4].


(** ** Rows of the embedding file *)

Section LoadingClaim.
Context {FD : Type} {F : Type}.
Variable to_float : FD -> F.
Variable py_int : string -> option Z.
Variable np_float : string -> option FD.

(** The number of space-separated fields of a row. *)
Definition fields (row : string) : nat := length (split_space row).

(** The first field of a row. *)
Definition node_id (row : string) : string := hd EmptyString (split_space row).

(** The statement that a file with a data row of fewer than [D + 1]
    fields is refused by the loader. *)
Definition short_row_rejected_claim (D : nat) : Prop :=
  forall (lines : list string) (row : string),
    In row (tl lines) -> fields row < D + 1 ->
    exists e, load_embeddings to_float py_int np_float lines = Raise e.

End LoadingClaim.

(** Parsers for the examples: integers in decimal notation with an
    optional minus sign, on which Python's [int] and numpy's conversion to
    float agree with them; the latter ignores a final newline. *)
Definition digit (c : ascii) : option Z :=
  let n := Z.of_nat (nat_of_ascii c) in
  if ((48 <=? n) && (n <=? 57))%Z then Some (n - 48)%Z else None.

Fixpoint digits (s : string) (acc : Z) : option Z :=
  match s with
  | EmptyString => Some acc
  | String c s' =>
      match digit c with
      | Some d => digits s' (10 * acc + d)%Z
      | None => None
      end
  end.

Definition int_literal (s : string) : option Z :=
  match s with
  | EmptyString => None
  | String "-"%char EmptyString => None
  | String "-"%char s' => option_map Z.opp (digits s' 0)
  | _ => digits s 0
  end.

Definition newline : string := String (ascii_of_nat 10) EmptyString.

Fixpoint strip_newline (s : string) : string :=
  match s with
  | EmptyString => EmptyString
  | String c s' =>
      if String.eqb s newline then EmptyString else String c (strip_newline s')
  end.

Definition float_literal (s : string) : option Q :=
  option_map inject_Z (int_literal (strip_newline s)).

(** A file with a header and two rows of three fields. *)
Definition file_short_rows : list string :=
  [append "2 2" newline; append "0 1 2" newline; append "1 3 4" newline].

(** A file whose second row has no space. *)
Definition file_bad_row : list string :=
  [append "2 2" newline; append "0 1 2" newline; append "1" newline].

(** ** Further inputs used in examples *)

(** Four points on a line for three clusters: the last three are equal. *)
Definition batch_0111 : matrix spec_float := [[z32 0]; [z32 1]; [z32 1]; [z32 1]].

(** The coordinates [w] of the samples labelled [j], in sample order. *)
Definition labelled {F : Type} (j : nat) (cl : list nat) (w : list F) : list F :=
  map snd (filter (fun p => Nat.eqb (fst p) j) (combine cl w)).

(** A tensor with a NaN entry. *)
Definition tensor_nan : matrix spec_float := [[z32 1; S754_nan]; [z32 2; z32 3]].


(** A data set whose node ids are 0, 1 and 3, and the order 0, 1, 2 of the
    indices. *)
Definition dataset_gap : list (Z * list Q) :=
  [(0%Z, [0; 0]%Q); (1%Z, [0; 1]%Q); (3%Z, [1; 1]%Q)].

Definition sampler_gap (epoch : nat) : list nat := [0; 1; 2].

(** A batch of two points on a line, and a mixture of three components
    with equal posteriors. *)
Definition batch_pair : matrix Q := [[0]; [1]]%Q.

Definition uniform_predict_proba (g : unit) (X : matrix Q) : result (matrix Q) :=
  Ok (map (fun _ => [1 # 3; 1 # 3; 1 # 3]%Q) X).

Definition uniform_state : @train_state Q unit unit :=
  {| params := tt; gmm := tt; psi := []; Sigma := [];
     train_loss := []; printed := [] |}.

(** * Properties *)

Lemma SFltb_key (x y : spec_float) :
  SF_is_nan x = false -> SF_is_nan y = false ->
  (SFltb x y = true <-> key_lt (SF_key x) (SF_key y)).
Proof.
  intros Hx Hy. unfold SFltb.
  destruct x as [sx|sx| |sx mx ex]; try discriminate;
  destruct y as [sy|sy| |sy my ey]; try discriminate;
  try destruct sx; try destruct sy; cbn;
  try (split; intros; try discriminate; try reflexivity; lia).
  all: destruct (Z.compare_spec ex ey) as [E|E|E]; cbn.
  all: try (split; intros; try discriminate; try reflexivity; lia).
  all: change (PosDef.Pos.compare_cont Eq mx my) with (Pos.compare mx my).
  all: destruct (Pos.compare_spec mx my) as [M|M|M]; cbn.
  all: split; intros; try discriminate; try reflexivity; lia.
Qed.

Lemma SFltb_nan_l (x y : spec_float) : SF_is_nan x = true -> SFltb x y = false.
Proof. destruct x; try discriminate. reflexivity. Qed.

Lemma SFltb_nan_r (x y : spec_float) : SF_is_nan y = true -> SFltb x y = false.
Proof. destruct y; try discriminate. destruct x; reflexivity. Qed.

Lemma key_lt_irrefl p : ~ key_lt p p.
Proof. destruct p as [[a b] c]. unfold key_lt. lia. Qed.

Lemma key_lt_trans p q r : key_lt p q -> key_lt q r -> key_lt p r.
Proof.
  destruct p as [[a b] c], q as [[a' b'] c'], r as [[a'' b''] c''].
  unfold key_lt. lia.
Qed.

Lemma key_lt_negtrans p q r : ~ key_lt p q -> ~ key_lt q r -> ~ key_lt p r.
Proof.
  destruct p as [[a b] c], q as [[a' b'] c'], r as [[a'' b''] c''].
  unfold key_lt. lia.
Qed.

#[export] Instance ieee_order (prec emax : Z) : @ScalarOrder spec_float (ieee prec emax).
Proof.
  constructor; cbn.
  - apply SFltb_nan_l.
  - apply SFltb_nan_r.
  - intros a. destruct (SF_is_nan a) eqn:Na.
    + now apply SFltb_nan_l.
    + destruct (SFltb a a) eqn:E; [|reflexivity].
      apply SFltb_key in E; trivial. now apply key_lt_irrefl in E.
  - intros a b c Hab Hbc.
    destruct (SF_is_nan a) eqn:Na; [now rewrite SFltb_nan_l in Hab|].
    destruct (SF_is_nan b) eqn:Nb; [now rewrite SFltb_nan_r in Hab|].
    destruct (SF_is_nan c) eqn:Nc; [now rewrite SFltb_nan_r in Hbc|].
    apply SFltb_key in Hab, Hbc; trivial. apply SFltb_key; trivial.
    eapply key_lt_trans; eauto.
  - intros a b c Na Nb Nc Hab Hbc.
    destruct (SFltb a c) eqn:E; [|reflexivity].
    apply SFltb_key in E; trivial. exfalso.
    revert E. apply (@key_lt_negtrans _ (SF_key b)).
    + intros H. apply SFltb_key in H; trivial. congruence.
    + intros H. apply SFltb_key in H; trivial. congruence.
Qed.

Lemma exact_flt (a b : Q) : @flt Q exact a b = true <-> (a < b)%Q.
Proof.
  cbn. rewrite negb_true_iff. split.
  - intros H. apply Qnot_le_lt. intros L. apply Qle_bool_iff in L. congruence.
  - intros H. destruct (Qle_bool b a) eqn:E; [|reflexivity].
    apply Qle_bool_iff in E. exfalso. eapply Qlt_not_le; eauto.
Qed.

Lemma exact_flt_false (a b : Q) : @flt Q exact a b = false <-> (b <= a)%Q.
Proof.
  cbn. rewrite negb_false_iff. apply Qle_bool_iff.
Qed.

#[export] Instance exact_order : @ScalarOrder Q exact.
Proof.
  constructor.
  - discriminate.
  - discriminate.
  - intros a. apply exact_flt_false. apply Qle_refl.
  - intros a b c Hab Hbc. apply exact_flt in Hab, Hbc. apply exact_flt.
    eapply Qlt_trans; eauto.
  - intros a b c _ _ _ Hab Hbc. apply exact_flt_false in Hab, Hbc.
    apply exact_flt_false. eapply Qle_trans; eauto.
Qed.

(** ** The hard assignment of KMeans *)

Section ArgminProperties.
Context {F : Type} {SF : Scalar F} {OF : @ScalarOrder F SF}.

Lemma better_tlt (a b : F) : better a b = true <-> tlt a b.
Proof.
  unfold better, tlt.
  rewrite andb_true_iff, negb_true_iff, orb_true_iff. tauto.
Qed.

Lemma tlt_irrefl (a : F) : ~ tlt a a.
Proof.
  intros [Hn [H|H]]; [congruence|]. rewrite flt_irrefl in H. discriminate.
Qed.

Lemma tlt_trans (a b c : F) : tlt a b -> tlt b c -> tlt a c.
Proof.
  intros [Nb Hab] [Nc Hbc]. split; [exact Nc|].
  destruct Hbc as [Hbc|Hbc]; [congruence|].
  destruct Hab as [Hab|Hab]; [now left|]. right. eapply flt_trans; eauto.
Qed.

Lemma tlt_negtrans (a b c : F) : ~ tlt a b -> ~ tlt b c -> ~ tlt a c.
Proof.
  intros Hab Hbc [Nc Hac].
  destruct (fnan b) eqn:Nb.
  - apply Hbc. split; [exact Nc | now left].
  - destruct (fnan a) eqn:Na.
    + apply Hab. split; [exact Nb | now left].
    + destruct Hac as [Hac|Hac]; [discriminate|].
      assert (flt a b = false) as H1.
      { destruct (flt a b) eqn:E; [|reflexivity].
        exfalso. apply Hab. split; [exact Nb | now right]. }
      assert (flt b c = false) as H2.
      { destruct (flt b c) eqn:E; [|reflexivity].
        exfalso. apply Hbc. split; [exact Nc | now right]. }
      rewrite (flt_negtrans a b c Na Nb Nc H1 H2) in Hac. discriminate.
Qed.

Lemma tlt_dec (a b : F) : tlt a b \/ ~ tlt a b.
Proof.
  destruct (better a b) eqn:E.
  - left. now apply better_tlt.
  - right. intros H. apply better_tlt in H. congruence.
Qed.

(** The scan keeps the first minimum of the entries read so far. *)
Lemma argmin_from_first_min (l pre : list F) (bi : nat) :
  first_min pre bi ->
  first_min (pre ++ l) (argmin_from l (length pre) bi (nth bi pre f0)).
Proof.
  revert pre bi. induction l as [|a l IH]; intros pre bi Hpre.
  - cbn. now rewrite app_nil_r.
  - destruct Hpre as (Hbi & Hmin & Hfirst). cbn [argmin_from].
    assert (length (pre ++ [a]) = S (length pre)) as Hlen
      by (rewrite length_app; cbn; lia).
    assert (forall j, j < length pre -> nth j (pre ++ [a]) f0 = nth j pre f0)
      as Hnth by (intros; now apply app_nth1).
    assert (nth (length pre) (pre ++ [a]) f0 = a) as Hlast
      by (rewrite app_nth2, Nat.sub_diag by lia; reflexivity).
    replace (pre ++ a :: l) with ((pre ++ [a]) ++ l)
      by (rewrite <- app_assoc; reflexivity).
    destruct (better a (nth bi pre f0)) eqn:E.
    + apply better_tlt in E.
      assert (first_min (pre ++ [a]) (length pre)) as H.
      { unfold first_min. rewrite Hlen. split; [lia|]. rewrite Hlast. split.
        * intros j Hj. destruct (Nat.eq_dec j (length pre)) as [->|Hne].
          -- rewrite Hlast. apply tlt_irrefl.
          -- rewrite Hnth by lia. intros H.
             apply (Hmin j); [lia|]. eapply tlt_trans; eauto.
        * intros j Hj. rewrite Hnth by lia.
          destruct (tlt_dec a (nth j pre f0)) as [H|H]; [exact H|].
          exfalso. revert E. eapply tlt_negtrans; [exact H|]. now apply Hmin. }
      apply IH in H. now rewrite Hlen, Hlast in H.
    + assert (first_min (pre ++ [a]) bi) as H.
      { unfold first_min. rewrite Hlen. split; [lia|]. rewrite !Hnth by lia. split.
        * intros j Hj. destruct (Nat.eq_dec j (length pre)) as [->|Hne].
          -- rewrite Hlast. intros H. apply better_tlt in H. congruence.
          -- rewrite Hnth by lia. apply Hmin. lia.
        * intros j Hj. rewrite Hnth by lia. now apply Hfirst. }
      apply IH in H. now rewrite Hlen, Hnth in H.
Qed.

Lemma argmin_first_min (row : list F) (i : nat) :
  argmin row = Ok i -> first_min row i.
Proof.
  destruct row as [|a l]; [discriminate|]. cbn. intros [= <-].
  apply (@argmin_from_first_min l [a] 0).
  split; [cbn; lia|]. split.
  - intros j Hj. cbn in Hj. replace j with 0 by lia. apply tlt_irrefl.
  - intros j Hj. lia.
Qed.

Lemma argmin_rows_spec (m : matrix F) (cl : list nat) :
  argmin_rows m = Ok cl ->
  length cl = length m /\
  forall s, s < length m -> first_min (nth s m []) (nth s cl 0).
Proof.
  revert cl. induction m as [|r m IH]; intros cl.
  - cbn. intros [= <-]. split; [reflexivity|]. cbn. lia.
  - cbn. destruct (argmin r) as [i|e] eqn:Ei; [|discriminate]. cbn.
    destruct (argmin_rows m) as [rest|e] eqn:Er; [|discriminate]. cbn.
    intros [= <-]. destruct (IH rest eq_refl) as [Hl Hs].
    split; [cbn; lia|]. intros [|s] Hlt; cbn.
    + now apply argmin_first_min.
    + apply Hs. cbn in Hlt. lia.
Qed.

End ArgminProperties.

Section KMeansAssignment.
Context {F : Type} {SF : Scalar F} {OF : @ScalarOrder F SF}.

Lemma argmin_dim1_rows (k : nat) (t : matrix F) (cl : list nat) :
  argmin_dim1 k t = Ok cl -> argmin_rows t = Ok cl.
Proof. unfold argmin_dim1. now destruct (Nat.eqb k 0). Qed.

Lemma kmeans_iter_labels (x c c' : matrix F) (cl : list nat) (pi : matrix F) :
  kmeans_iter x c = Ok (cl, pi, c') -> argmin_rows (distances x c) = Ok cl.
Proof.
  unfold kmeans_iter.
  destruct (argmin_dim1 (length c) (distances x c)) as [cl0|e] eqn:Ea;
    [|discriminate].
  apply argmin_dim1_rows in Ea. cbn.
  destruct (normalize (distances x c)) as [nz|e]; [|discriminate]. cbn.
  destruct (update_centroids _ _ _ _ _) as [c0|e]; [|discriminate]. cbn.
  now intros [= -> _ _].
Qed.

(** C8.  In every pass of the K-means loop, on the batch [x] and the
    centroids [c] that enter the pass, the label of every sample is the
    index of the first minimum of the sample's row of the distance matrix
    [distances x c] of that pass: no entry of the row is smaller, and
    every entry at a lower index is strictly larger.  KMeans returns the
    labels of its last pass. *)
Theorem KMeans_pass_hard_assignment (x c c' : matrix F)
    (cl : list nat) (pi : matrix F) :
  kmeans_iter x c = Ok (cl, pi, c') ->
  length cl = length x /\
  forall s, s < length x ->
    first_min (nth s (distances x c) []) (nth s cl 0).
Proof.
  intros H. apply kmeans_iter_labels, argmin_rows_spec in H.
  unfold distances in H at 1 2. rewrite length_map in H. exact H.
Qed.

End KMeansAssignment.

Lemma KMeans_pass_hard_assignment_witness :
  length [0; 0; 2] = length batch_005 /\
  forall s, s < length batch_005 ->
    @first_min _ binary32
      (nth s (@distances _ binary32 batch_005 (firstn 3 batch_005)) [])
      (nth s [0; 0; 2] 0).
Proof.
  apply (@KMeans_pass_hard_assignment spec_float binary32 (ieee_order 24 128)
           batch_005 (firstn 3 batch_005)
           [[z32 0]; [S754_nan]; [z32 5]] [0; 0; 2]
           (map (map (fun a => @fsub _ binary32 (@f1 _ binary32) a))
              [[z32 0; z32 0; z32 1]; [z32 0; z32 0; z32 1];
               [z32 1; z32 1; z32 0]])).
  vm_compute. reflexivity.
Defined.

(** ** Recomputation of the centroids *)

Section Centroids.
Context {F : Type} {SF : Scalar F}.

Lemma set_nth_length (r : list F) d a : length (set_nth r d a) = length r.
Proof.
  unfold set_nth. rewrite length_app.
  rewrite <- (firstn_skipn d r) at 3. rewrite length_app.
  f_equal. destruct (skipn d r); reflexivity.
Qed.

Lemma set_nth_same (r : list F) d a :
  d < length r -> nth d (set_nth r d a) f0 = a.
Proof.
  intros H. unfold set_nth.
  rewrite app_nth2; rewrite length_firstn, Nat.min_l by lia; [|lia].
  rewrite Nat.sub_diag.
  destruct (skipn d r) eqn:E; [|reflexivity].
  apply (f_equal (@length F)) in E. rewrite length_skipn in E. cbn in E. lia.
Qed.

Lemma set_nth_other (r : list F) d d' a :
  d <> d' -> nth d' (set_nth r d a) f0 = nth d' r f0.
Proof.
  intros H. unfold set_nth.
  rewrite <- (firstn_skipn d r) at 3.
  destruct (Nat.lt_ge_cases d' d) as [L|L].
  - destruct (Nat.lt_ge_cases d' (length r)) as [L'|L'].
    + rewrite !app_nth1 by (rewrite length_firstn; lia). reflexivity.
    + rewrite !nth_overflow; trivial.
      * rewrite firstn_skipn. lia.
      * rewrite length_app, length_firstn.
        destruct (skipn d r) eqn:E; cbn; [lia|].
        apply (f_equal (@length F)) in E. rewrite length_skipn in E. cbn in E. lia.
  - destruct (Nat.lt_ge_cases d (length r)) as [L'|L'].
    + rewrite !app_nth2 by (rewrite length_firstn; lia).
      rewrite length_firstn, Nat.min_l by lia.
      destruct (skipn d r) eqn:E; [reflexivity|].
      destruct (d' - d) as [|k] eqn:Ek; [lia|]. reflexivity.
    + rewrite skipn_all2 by lia. reflexivity.
Qed.

Lemma assign_col_ok (c : matrix F) d t c' :
  2 <= length t ->
  assign_col c d t = Ok c' ->
  length t = length c /\ length c' = length c /\
  forall j, j < length c ->
    nth j c' [] = set_nth (nth j c []) d (nth j t f0).
Proof.
  intros Ht. unfold assign_col.
  destruct (Nat.eqb (length t) (length c)) eqn:E.
  - apply Nat.eqb_eq in E. intros [= <-]. split; [exact E|].
    rewrite length_map, length_combine, E, Nat.min_id. split; [reflexivity|].
    intros j Hj.
    rewrite (nth_indep _ [] (set_nth (fst (@nil F, f0)) d (snd (@nil F, f0))))
      by (rewrite length_map, length_combine; lia).
    rewrite (map_nth (fun rt : list F * F => set_nth (fst rt) d (snd rt))).
    rewrite combine_nth by lia. reflexivity.
  - destruct t as [|a [|b t]]; cbn in Ht; try lia. discriminate.
Qed.

Lemma bin_weight_absent (b : nat) (cl : list nat) (w : list F) (acc : F) :
  ~ In b cl -> bin_weight b cl w acc = acc.
Proof.
  revert w acc. induction cl as [|k cl IH]; intros w acc H; [reflexivity|].
  destruct w as [|a w]; [reflexivity|]. cbn.
  destruct (Nat.eqb_spec k b) as [->|Hne].
  - exfalso. apply H. now left.
  - apply IH. intros Hin. apply H. now right.
Qed.

Lemma nbins_gt (cl : list nat) i : In i cl -> i < nbins cl.
Proof.
  intros H. unfold nbins. destruct cl as [|k cl]; [contradiction|].
  remember (k :: cl) as l. clear Heql.
  induction l as [|a l IH]; [contradiction|]. cbn.
  destruct H as [->|H]; [lia|]. apply IH in H. lia.
Qed.

Lemma tdiv_length (a b : list F) :
  length a = length b -> length (tdiv a b) = length a.
Proof.
  intros H. unfold tdiv. rewrite length_map, length_combine. lia.
Qed.

Lemma tdiv_nth (a b : list F) j :
  length a = length b -> j < length a ->
  nth j (tdiv a b) f0 = fdiv (nth j a f0) (nth j b f0).
Proof.
  intros H Hj. unfold tdiv.
  rewrite (nth_indep _ f0 (fdiv (fst (f0, f0)) (snd (f0, f0))))
    by (rewrite length_map, length_combine; lia).
  rewrite (map_nth (fun p => fdiv (fst p) (snd p))).
  rewrite combine_nth by lia. reflexivity.
Qed.

Lemma map_seq_nth {A : Type} (f : nat -> A) (n j : nat) (dflt : A) :
  j < n -> nth j (map f (seq 0 n)) dflt = f j.
Proof.
  intros H. rewrite (nth_indep _ dflt (f 0)) by (rewrite length_map, length_seq; lia).
  rewrite map_nth. rewrite seq_nth by lia. reflexivity.
Qed.

(** Column [d] of the quotient that the loop assigns, at an empty
    cluster [j] below the largest label. *)
Lemma centroid_entry_empty (x : matrix F) (cl : list nat) (j d : nat) :
  ~ In j cl -> j < nbins cl ->
  nth j (tdiv (bincount_weights cl (col x d)) (map fcount (bincount cl))) f0
  = fdiv f0 (fcount 0).
Proof.
  intros Hj Hlt.
  assert (length (bincount_weights cl (col x d)) = nbins cl) as L1
    by (unfold bincount_weights; now rewrite length_map, length_seq).
  assert (length (map fcount (bincount cl)) = nbins cl) as L2
    by (unfold bincount; now rewrite !length_map, length_seq).
  rewrite tdiv_nth by lia.
  unfold bincount_weights, bincount. rewrite map_map.
  rewrite !map_seq_nth by lia.
  rewrite bin_weight_absent by exact Hj.
  apply (count_occ_not_In Nat.eq_dec) in Hj. now rewrite Hj.
Qed.

Lemma update_centroids_ok (x : matrix F) (cl : list nat) (Ncl : list F)
    (ds : list nat) (c c' : matrix F) :
  (forall d, 2 <= length (tdiv (bincount_weights cl (col x d)) Ncl)) ->
  NoDup ds ->
  update_centroids x c cl Ncl ds = Ok c' ->
  length c' = length c /\
  forall j d, j < length c ->
    length (nth j c' []) = length (nth j c []) /\
    (In d ds -> d < length (nth j c []) ->
       nth d (nth j c' []) f0
       = nth j (tdiv (bincount_weights cl (col x d)) Ncl) f0) /\
    (~ In d ds -> nth d (nth j c' []) f0 = nth d (nth j c []) f0).
Proof.
  intros Ht. revert c. induction ds as [|d0 ds IH]; intros c Hnd; cbn.
  - intros [= <-]. split; [reflexivity|]. intros j d Hj.
    split; [reflexivity|]. split; [contradiction | reflexivity].
  - destruct (assign_col c d0 _) as [c1|e] eqn:E1; [|discriminate]. cbn.
    intros H. inversion Hnd as [|? ? Hnotin Hnd']; subst.
    apply assign_col_ok in E1; [|apply Ht]. destruct E1 as (_ & Hl1 & Hrow1).
    destruct (IH c1 Hnd' H) as (Hl & Hrows).
    split; [lia|]. intros j d Hj.
    destruct (Hrows j d ltac:(lia)) as (Hlen & Hin & Hout).
    rewrite Hrow1 in Hlen, Hin, Hout by exact Hj.
    rewrite set_nth_length in Hlen, Hin.
    split; [exact Hlen|]. split.
    + intros [<-|Hd] Hdl.
      * rewrite Hout by exact Hnotin. now apply set_nth_same.
      * now apply Hin.
    + intros Hd. rewrite Hout by (intros Hd'; apply Hd; now right).
      apply set_nth_other. intros ->. apply Hd. now left.
Qed.
End Centroids.

Section EmptyCluster.
Context {F : Type} {SF : Scalar F}.

(** Zero divided by a zero count is NaN, as in IEEE arithmetic. *)
Hypothesis zero_div_zero : fnan (fdiv f0 (fcount 0)) = true.

(** C6, amended.  In a pass of the K-means loop that completes, a cluster
    [j] without members whose index is below the label of some sample gets
    NaN in every coordinate of its centroid. *)
Theorem empty_cluster_below_label_gives_nan
    (x c c' : matrix F) (cl : list nat) (pi : matrix F) (j d : nat) :
  kmeans_iter x c = Ok (cl, pi, c') ->
  j < length c -> length (nth j c []) = ncols x ->
  ~ In j cl ->
  (exists i, In i cl /\ j < i) ->
  d < ncols x ->
  fnan (nth d (nth j c' []) f0) = true.
Proof.
  intros H Hj Hrow Hempty (i & Hi & Hji) Hd.
  unfold kmeans_iter in H.
  destruct (argmin_dim1 (length c) (distances x c)) as [cl0|e]; [|discriminate].
  cbn in H.
  destruct (normalize (distances x c)) as [nz|e]; [|discriminate].
  cbn in H.
  destruct (update_centroids _ _ _ _ _) as [c0|e] eqn:E; [|discriminate].
  cbn in H. injection H as -> _ ->.
  assert (i < nbins cl) as Hibins by (now apply nbins_gt).
  assert (j < nbins cl) as Hbins by lia.
  apply update_centroids_ok in E.
  - destruct E as (_ & Hrows).
    destruct (Hrows j d Hj) as (_ & Hin & _).
    rewrite Hin; [| apply in_seq; lia | lia].
    rewrite centroid_entry_empty by assumption. exact zero_div_zero.
  - intros d'. rewrite tdiv_length.
    + unfold bincount_weights. rewrite length_map, length_seq. lia.
    + unfold bincount_weights, bincount.
      now rewrite !length_map, !length_seq.
  - apply seq_NoDup.
Qed.

End EmptyCluster.

Lemma ieee_zero_div_zero (prec emax : Z) :
  @fnan _ (ieee prec emax)
    (@fdiv _ (ieee prec emax) (@f0 _ (ieee prec emax)) (@fcount _ (ieee prec emax) 0))
  = true.
Proof. reflexivity. Qed.

Lemma empty_cluster_below_label_gives_nan_witness :
  @fnan _ binary32
    (nth 0 (nth 1 [[z32 0]; [S754_nan]; [z32 5]] []) (@f0 _ binary32)) = true.
Proof.
  apply (@empty_cluster_below_label_gives_nan spec_float binary32
           (ieee_zero_div_zero 24 128)
           batch_005 batch_005 [[z32 0]; [S754_nan]; [z32 5]] [0; 0; 2]
           (map (map (fun a => @fsub _ binary32 (@f1 _ binary32) a))
              [[z32 0; z32 0; z32 1]; [z32 0; z32 0; z32 1];
               [z32 1; z32 1; z32 0]])
           1 0).
  - vm_compute. reflexivity.
  - vm_compute. lia.
  - reflexivity.
  - cbn. intros [H|[H|[H|[]]]]; discriminate.
  - exists 2. split; [cbn; tauto | lia].
  - vm_compute. lia.
Defined.

(** With three clusters on [batch_005] the first pass leaves NaN in the
    centroid of the empty cluster 1; in a second pass the distances to it
    are NaN and [normalize] reads the unbound name. *)
Lemma nan_centroid_next_pass :
  @KMeans _ binary32 batch_005 3 2 = Raise (NameError "vector").
Proof. vm_compute. reflexivity. Qed.

(** C6, as stated, fails: with two clusters on [batch_001] every sample is
    labelled 0, cluster 1 has no member, [bincount] has a single entry, and
    the assignment broadcasts the mean 1/3 of all samples to both centroids:
    the centroid of the empty cluster is a number, not NaN. *)
Lemma empty_cluster_nan_counterexample :
  @kmeans_iter _ binary32 batch_001 (firstn 2 batch_001)
  = Ok ([0; 0; 0],
        [[z32 1; z32 1]; [z32 1; z32 1]; [z32 0; z32 0]],
        [[S754_finite false 11184811 (-25)]; [S754_finite false 11184811 (-25)]])
  /\ ~ empty_cluster_nan_claim binary32.
Proof.
  assert (@kmeans_iter _ binary32 batch_001 (firstn 2 batch_001)
          = Ok ([0; 0; 0],
                [[z32 1; z32 1]; [z32 1; z32 1]; [z32 0; z32 0]],
                [[S754_finite false 11184811 (-25)];
                 [S754_finite false 11184811 (-25)]])) as E
    by (vm_compute; reflexivity).
  split; [exact E|]. intros H.
  specialize (H _ _ _ _ _ 1 0 E).
  assert (@fnan _ binary32
            (nth 0 (nth 1 [[S754_finite false 11184811 (-25)];
                           [S754_finite false 11184811 (-25)]] [])
               (@f0 _ binary32)) = true) as N.
  { apply H.
    - cbn. lia.
    - reflexivity.
    - cbn. intros [A|[A|[A|[]]]]; discriminate.
    - cbn. lia. }
  discriminate N.
Qed.

(** ** normalize on a tensor whose entries are all equal *)

Section NormalizeConstant.
Context {F : Type} {SF : Scalar F}.

(** A difference [a - a] is never positive: it is zero, or NaN when [a]
    is infinite or NaN. *)
Hypothesis fsub_diag_not_pos : forall a : F, flt f0 (fsub a a) = false.

Lemma fold_fmin2_constant (a : F) (l : list F) :
  Forall (eq a) l -> fold_left fmin2 l a = a.
Proof.
  induction 1 as [|b l <- _ IH]; [reflexivity|]. cbn.
  replace (fmin2 a a) with a; [exact IH|].
  unfold fmin2. destruct (fnan a); [reflexivity|].
  now destruct (flt a a).
Qed.

Lemma fold_fmax2_constant (a : F) (l : list F) :
  Forall (eq a) l -> fold_left fmax2 l a = a.
Proof.
  induction 1 as [|b l <- _ IH]; [reflexivity|]. cbn.
  replace (fmax2 a a) with a; [exact IH|].
  unfold fmax2. destruct (fnan a); [reflexivity|].
  now destruct (flt a a).
Qed.

(** Whatever the common value, the [else] branch is taken and the unbound
    name is read. *)
Lemma normalize_constant (a : F) (v : matrix F) :
  concat v <> [] -> Forall (eq a) (concat v) ->
  normalize v = Raise (NameError "vector").
Proof.
  intros Hne Hall. unfold normalize.
  destruct (concat v) as [|b l]; [contradiction|].
  inversion Hall as [|? ? <- Hl]; subst. cbn.
  rewrite fold_fmin2_constant, fold_fmax2_constant by assumption.
  now rewrite fsub_diag_not_pos.
Qed.

End NormalizeConstant.

Lemma ieee_fsub_diag_not_pos (prec emax : Z) (a : spec_float) :
  @flt _ (ieee prec emax) (@f0 _ (ieee prec emax)) (@fsub _ (ieee prec emax) a a)
  = false.
Proof.
  cbn. destruct a as [[|]|[|]| |s m e]; try reflexivity.
  unfold SFsub. rewrite Z.sub_diag. reflexivity.
Qed.

Lemma exact_fsub_diag_not_pos (a : Q) :
  @flt _ exact (@f0 _ exact) (@fsub _ exact a a) = false.
Proof.
  apply exact_flt_false. cbn. unfold Qminus. rewrite Qplus_opp_r. apply Qle_refl.
Qed.

(** C2.  On a tensor with equal entries [normalize] raises [NameError]
    instead of returning zeros, and so does KMeans on a batch of equal
    points, in its first pass. *)
Theorem normalize_equal_entries_raises :
  @normalize _ binary32 [[z32 4; z32 4]; [z32 4; z32 4]]
    = Raise (NameError "vector")
  /\ @distances _ binary32 batch_equal (firstn 2 batch_equal)
    = [[z32 0; z32 0]; [z32 0; z32 0]; [z32 0; z32 0]]
  /\ @KMeans _ binary32 batch_equal 2 10 = Raise (NameError "vector").
Proof.
  split; [|split]; vm_compute; reflexivity.
Qed.

(** ** Broadcasting on the shapes that occur *)

Section Broadcasting.
Context {F : Type} {SF : Scalar F}.

Lemma rect_ncols (M K : nat) (A : matrix F) :
  rect M K A -> 1 <= M -> ncols A = K.
Proof.
  intros [Hl Hr] HM. destruct A as [|r A]; cbn in *; [lia|].
  now inversion Hr.
Qed.

Lemma expand_row_id (K : nat) (r : list F) : length r = K -> expand_row K r = r.
Proof. intros <-. unfold expand_row. now rewrite Nat.eqb_refl. Qed.

Lemma expand_rect (M K : nat) (A : matrix F) : rect M K A -> expand M K A = A.
Proof.
  intros [Hl Hr]. unfold expand.
  assert (map (expand_row K) A = A) as ->.
  { clear Hl. induction Hr as [|r A Hr _ IH]; cbn; [reflexivity|].
    now rewrite IH, expand_row_id. }
  now rewrite Hl, Nat.eqb_refl.
Qed.

Lemma expand_row_vector (M K : nat) (p : list F) :
  length p = K -> expand M K [p] = repeat p M.
Proof.
  intros Hp. unfold expand. cbn [map]. rewrite expand_row_id by exact Hp.
  destruct M as [|[|M]]; reflexivity.
Qed.

Lemma expand_row_singleton (K : nat) (d : F) : expand_row K [d] = repeat d K.
Proof.
  unfold expand_row. destruct K as [|[|K]]; reflexivity.
Qed.

Lemma expand_col_vector (M K : nat) (ds : list F) :
  length ds = M ->
  expand M K (map (fun d => [d]) ds) = map (fun d => repeat d K) ds.
Proof.
  intros Hl. unfold expand. rewrite map_map.
  rewrite (map_ext _ (fun d => repeat d K)) by (intros; apply expand_row_singleton).
  now rewrite length_map, Hl, Nat.eqb_refl.
Qed.

Lemma bdim_same (n : nat) : bdim n n = Ok n.
Proof. unfold bdim. now rewrite Nat.eqb_refl. Qed.

Lemma bdim_one_l (n : nat) : bdim 1 n = Ok n.
Proof. destruct n as [|[|n]]; reflexivity. Qed.

Lemma bdim_one_r (n : nat) : bdim n 1 = Ok n.
Proof.
  unfold bdim. destruct (Nat.eqb_spec n 1) as [->|]; [reflexivity|].
  reflexivity.
Qed.

(** Two tensors of one shape: entry by entry. *)
Lemma broadcast2_same (f : F -> F -> F) (M K : nat) (A B : matrix F) :
  rect M K A -> rect M K B ->
  broadcast2 f A B
  = Ok (map (fun p => zip_with f (fst p) (snd p)) (combine A B)).
Proof.
  intros HA HB. unfold broadcast2.
  destruct HA as [HlA HrA], HB as [HlB HrB].
  rewrite HlA, HlB, bdim_same. cbn.
  assert (ncols A = ncols B) as ->.
  { destruct A as [|a A], B as [|b B]; cbn in *; try lia.
    inversion HrA; inversion HrB; congruence. }
  rewrite bdim_same. cbn.
  destruct (Nat.eq_dec M 0) as [->|HM].
  - destruct A, B; cbn in *; try lia. reflexivity.
  - assert (ncols B = K) as -> by (apply (@rect_ncols M); [split; assumption | lia]).
    rewrite !expand_rect by (split; assumption). reflexivity.
Qed.

Lemma combine_repeat_l {A B : Type} (a : A) (l : list B) :
  combine (repeat a (length l)) l = map (fun b => (a, b)) l.
Proof. induction l as [|b l IH]; cbn; [reflexivity|]. now rewrite IH. Qed.

(** A row vector against a matrix: the row is used for every row. *)
Lemma broadcast2_row (f : F -> F -> F) (M K : nat) (p : list F) (B : matrix F) :
  1 <= M -> length p = K -> rect M K B ->
  broadcast2 f [p] B = Ok (map (fun b => zip_with f p b) B).
Proof.
  intros HM Hp HB. unfold broadcast2.
  rewrite (@rect_ncols M K B HB HM). destruct HB as [HlB HrB].
  cbn [length ncols]. rewrite HlB, bdim_one_l, Hp, bdim_same. cbn.
  rewrite expand_row_vector by exact Hp.
  rewrite expand_rect by (split; assumption).
  rewrite <- HlB, combine_repeat_l, map_map. reflexivity.
Qed.

(** A matrix against a column vector: each row against its entry. *)
Lemma broadcast2_col (f : F -> F -> F) (M K : nat) (A : matrix F) (ds : list F) :
  1 <= M -> rect M K A -> length ds = M ->
  broadcast2 f A (map (fun d => [d]) ds)
  = Ok (map (fun ad => map (fun a => f a (snd ad)) (fst ad)) (combine A ds)).
Proof.
  intros HM HA Hd. unfold broadcast2.
  rewrite (@rect_ncols M K A HA HM). pose proof HA as [HlA HrA].
  rewrite length_map, HlA, Hd, bdim_same. cbn.
  assert (ncols (map (fun d : F => [d]) ds) = 1) as ->
    by (destruct ds; cbn in *; [lia | reflexivity]).
  rewrite bdim_one_r. cbn.
  rewrite expand_rect by exact HA. rewrite expand_col_vector by exact Hd.
  f_equal. rewrite <- HlA in Hd. clear HM HA HlA. revert ds Hd.
  induction HrA as [|a A Ha _ IH]; intros ds Hd; [reflexivity|].
  destruct ds as [|d ds]; [reflexivity|]. cbn.
  f_equal.
  - unfold zip_with. rewrite <- Ha. clear. induction a as [|x a IH]; cbn; [reflexivity|].
    now rewrite IH.
  - cbn in Hd. apply IH. lia.
Qed.

End Broadcasting.

Section GammaShape.
Context {F : Type} {SF : Scalar F}.

Lemma zip_with_length (f : F -> F -> F) (a b : list F) :
  length (zip_with f a b) = Nat.min (length a) (length b).
Proof. unfold zip_with. now rewrite length_map, length_combine. Qed.


Lemma rect_zip_same (f : F -> F -> F) (M K : nat) (A B : matrix F) :
  rect M K A -> rect M K B ->
  rect M K (map (fun p => zip_with f (fst p) (snd p)) (combine A B)).
Proof.
  intros [HlA HrA] [HlB HrB]. split.
  - rewrite length_map, length_combine. lia.
  - apply Forall_forall. intros r Hin. apply in_map_iff in Hin.
    destruct Hin as ([a b] & <- & Hin). cbn [fst snd]. rewrite zip_with_length.
    pose proof (in_combine_l _ _ _ _ Hin) as Ha.
    pose proof (in_combine_r _ _ _ _ Hin) as Hb.
    rewrite Forall_forall in HrA, HrB.
    rewrite (HrA a Ha), (HrB b Hb). lia.
Qed.

(** Each entry of the numerator divided by the sum of its row. *)
Lemma gamma_of_numerator (M K : nat) (num : matrix F) :
  1 <= M -> rect M K num ->
  broadcast2 fdiv num (sum_dim1 num)
  = Ok (map (fun r => map (fun a => fdiv a (tsum r)) r) num).
Proof.
  intros HM Hn. unfold sum_dim1.
  rewrite <- (map_map tsum (fun d => [d])).
  rewrite (@broadcast2_col _ _ fdiv M K) by
    (try assumption; rewrite length_map; apply Hn).
  f_equal. clear. induction num as [|r num IH]; cbn; [reflexivity|].
  now rewrite IH.
Qed.


Lemma compute_gamma_same (M K : nat) (pi probs : matrix F) :
  1 <= M -> rect M K pi -> rect M K probs ->
  compute_gamma pi probs
  = Ok (map (fun r => map (fun a => fdiv a (tsum r)) r)
          (map (fun p => zip_with fmul (fst p) (snd p)) (combine pi probs))).
Proof.
  intros HM Hp Hr. unfold compute_gamma.
  rewrite (@broadcast2_same _ _ fmul M K pi probs Hp Hr). cbn [bind].
  apply (@gamma_of_numerator M K); [exact HM|].
  now apply rect_zip_same.
Qed.

End GammaShape.

(** ** Sums of rationals *)

Open Scope Q_scope.

Lemma fold_Qplus_proper (l : list Q) (a b : Q) :
  a == b -> fold_left Qplus l a == fold_left Qplus l b.
Proof.
  revert a b. induction l as [|x l IH]; intros a b H; cbn; [exact H|].
  apply IH. now rewrite H.
Qed.





Close Scope Q_scope.

(** ** Rows of gamma sum to one *)








(** ** The soft affinities in exact arithmetic *)










(** ** The denominators of gamma in exact arithmetic *)



Lemma rect_map {A B : Type} (f : A -> B) (M K : nat) (m : matrix A) :
  rect M K m -> rect M K (map (map f) m).
Proof.
  intros [Hl Hr]. split; [now rewrite length_map|].
  apply Forall_map. eapply Forall_impl; [|exact Hr].
  intros r Hr'. now rewrite length_map.
Qed.





(** ** The loss formula *)

Lemma list_as_map_nth {A : Type} (d : A) (l : list A) :
  l = map (fun i => nth i l d) (seq 0 (length l)).
Proof.
  apply (nth_ext _ _ d d).
  - now rewrite length_map, length_seq.
  - intros i Hi. now rewrite map_seq_nth.
Qed.

Section LossFormulaProof.
Context {F : Type} {SF : Scalar F}.
Variables (K : nat) (eps beta : F).
Variable flog : F -> F.
Variable G : Type.
Variable predict_proba : G -> matrix F -> result (matrix F).
Variable fit : G -> matrix F -> result G.
Variables means_ covariances_ : G -> matrix F.

Lemma zip_with_as_map (f : F -> F -> F) (n : nat) (a b : list F) :
  length a = n -> length b = n ->
  zip_with f a b = map (fun k => f (nth k a f0) (nth k b f0)) (seq 0 n).
Proof.
  intros Ha Hb. apply (nth_ext _ _ f0 f0).
  - rewrite zip_with_length, length_map, length_seq. lia.
  - intros i Hi. rewrite zip_with_length in Hi.
    rewrite map_seq_nth by lia. unfold zip_with.
    rewrite (nth_indep _ f0 (f (fst (f0, f0)) (snd (f0, f0))))
      by (rewrite length_map, length_combine; lia).
    rewrite (map_nth (fun p : F * F => f (fst p) (snd p))).
    rewrite combine_nth by lia. reflexivity.
Qed.

Lemma concat_sum_dim1 (m : matrix F) : concat (sum_dim1 m) = map tsum m.
Proof.
  unfold sum_dim1. induction m as [|r m IH]; cbn; [reflexivity|].
  now rewrite IH.
Qed.

Lemma compute_gamma_rect (M Kc : nat) (pi probs gamma : matrix F) :
  1 <= M -> rect M Kc pi -> rect M Kc probs ->
  compute_gamma pi probs = Ok gamma -> rect M Kc gamma.
Proof.
  intros HM Hpi Hpr. rewrite (@compute_gamma_same F SF M Kc pi probs HM Hpi Hpr).
  intros [= <-].
  pose proof (@rect_zip_same F fmul M Kc pi probs Hpi Hpr) as [Hl Hr].
  split; [now rewrite length_map|].
  apply Forall_map. eapply Forall_impl; [|exact Hr].
  intros r Hr'. now rewrite length_map.
Qed.

Lemma col_as_entries (M : nat) (A : matrix F) (k : nat) :
  length A = M -> col A k = map (fun i => entry A i k) (seq 0 M).
Proof.
  intros <-. unfold col, entry.
  rewrite (list_as_map_nth [] A) at 1. now rewrite map_map.
Qed.

(** The new mixing weights form one row, whose entry [k] is
    [mixing_weight M gamma k]. *)
Lemma new_weights_row (M Kc : nat) (gamma : matrix F) :
  1 <= M -> rect M Kc gamma ->
  map (map (fun a => fdiv a (fcount M))) (sum_dim0 gamma)
  = [map (fun k => mixing_weight M gamma k) (seq 0 Kc)].
Proof.
  intros HM Hg. unfold sum_dim0. cbn [map].
  rewrite (@rect_ncols F M Kc gamma Hg HM). rewrite map_map.
  f_equal. apply map_ext. intros k. unfold mixing_weight.
  now rewrite (@col_as_entries M gamma k) by apply Hg.
Qed.

Lemma loss_of_formula (M Kc : nat) (gamma probs : matrix F) (loss : F) :
  1 <= M -> rect M Kc gamma -> rect M Kc probs ->
  loss_of K beta flog
    (map (map (fun a => fdiv a (fcount M))) (sum_dim0 gamma)) probs = Ok loss ->
  loss = loss_formula K beta flog M Kc gamma probs.
Proof.
  intros HM Hg Hp. rewrite (new_weights_row HM Hg). unfold loss_of.
  rewrite (@broadcast2_row F SF fmul M Kc _ probs HM) by
    (try assumption; now rewrite length_map, length_seq).
  cbn [bind]. intros [= <-]. unfold loss_formula. f_equal. f_equal.
  rewrite concat_sum_dim1, !map_map.
  destruct Hp as [Hl Hr].
  rewrite (list_as_map_nth [] probs) at 1. rewrite Hl, map_map.
  apply map_ext_in. intros i Hi. apply in_seq in Hi. f_equal.
  assert (length (nth i probs []) = Kc) as Hrow.
  { rewrite Forall_forall in Hr. apply Hr, nth_In. lia. }
  rewrite (@zip_with_as_map fmul Kc) by
    (try assumption; now rewrite length_map, length_seq).
  rewrite map_map. apply map_ext_in. intros k Hk. apply in_seq in Hk.
  rewrite map_seq_nth by lia. reflexivity.
Qed.

(** C10.  For a batch of [M] samples whose soft affinities and posteriors
    are [M] by [Kc] matrices, the loss returned by [compute_loss] is
    [-(beta / K)] times the sum over all samples and components of
    [log (pi_k * probs[i][k])], where [probs] is the posterior matrix
    clamped at [eps], gamma is [compute_gamma pi probs], and [pi_k] is the
    sum of column [k] of gamma divided by [M]. *)
Theorem compute_loss_formula (model : matrix F -> matrix F) (gmm gmm' : G)
    (X_batch pi psi Sigma psi' Sigma' p : matrix F) (loss : F) (M Kc : nat) :
  1 <= M -> length X_batch = M ->
  rect M Kc pi -> rect M Kc p ->
  predict_proba gmm (model X_batch) = Ok p ->
  compute_loss K eps beta flog predict_proba fit means_ covariances_
    model gmm X_batch pi psi Sigma = Ok (psi', Sigma', loss, gmm') ->
  exists gamma,
    compute_gamma pi (clamp_min eps p) = Ok gamma /\
    loss = loss_formula K beta flog M Kc gamma (clamp_min eps p).
Proof.
  intros HM HX Hpi Hp Hpred. unfold compute_loss. rewrite Hpred. cbn [bind].
  assert (rect M Kc (clamp_min eps p)) as Hc by (now apply rect_map).
  destruct (compute_gamma pi (clamp_min eps p)) as [gamma|e] eqn:Eg;
    [|discriminate]. cbn [bind].
  destruct (fit gmm (model X_batch)) as [g1|e]; [|discriminate]. cbn [bind].
  destruct (loss_of _ _ _ _ _) as [loss0|e] eqn:El; [|discriminate]. cbn [bind].
  intros [= _ _ <- _]. exists gamma. split; [reflexivity|].
  rewrite HX in El.
  assert (rect M Kc gamma) as Hg
    by (apply (@compute_gamma_rect M Kc pi (clamp_min eps p)); assumption).
  apply (@loss_of_formula M Kc gamma (clamp_min eps p) loss0); assumption.
Qed.

End LossFormulaProof.

Lemma compute_loss_formula_witness :
  exists gamma,
    @compute_gamma Q exact affinities_line (@clamp_min Q exact toy_eps posteriors_line)
      = Ok gamma /\
    loss_line
    = @loss_formula Q exact 2 toy_beta log_stub 3 2 gamma
        (@clamp_min Q exact toy_eps posteriors_line).
Proof.
  apply (@compute_loss_formula Q exact 2 toy_eps toy_beta log_stub toy_gmm
           toy_predict_proba toy_fit toy_means toy_covariances
           (fun X => X) gmm_before gmm_line
           batch_line affinities_line
           (toy_means gmm_before) (toy_covariances gmm_before)
           (toy_means gmm_line) (toy_covariances gmm_line)
           posteriors_line loss_line 3 2).
  - lia.
  - reflexivity.
  - split; [reflexivity|]. repeat constructor.
  - split; [reflexivity|]. repeat constructor.
  - vm_compute. reflexivity.
  - vm_compute. reflexivity.
Defined.

(** ** The order of posteriors and refit in compute_loss *)

Section StepOrder.
Context {F : Type} {SF : Scalar F}.
Variables (K : nat) (eps beta : F).
Variable flog : F -> F.
Variable G : Type.
Variable predict_proba : G -> matrix F -> result (matrix F).
Variable fit : G -> matrix F -> result G.
Variables means_ covariances_ : G -> matrix F.

(** What a successful call of [compute_loss] did: the posteriors were
    asked from the mixture as passed in, the loss was computed from them,
    and the mixture was refit on the network's output. *)
Lemma compute_loss_inv (model : matrix F -> matrix F) (gmm gmm' : G)
    (X_batch pi psi Sigma psi' Sigma' : matrix F) (loss : F) :
  compute_loss K eps beta flog predict_proba fit means_ covariances_
    model gmm X_batch pi psi Sigma = Ok (psi', Sigma', loss, gmm') ->
  exists p,
    predict_proba gmm (model X_batch) = Ok p /\
    loss_from_posteriors K beta flog (length X_batch) pi (clamp_min eps p)
      = Ok loss /\
    fit gmm (model X_batch) = Ok gmm' /\
    psi' = means_ gmm' /\ Sigma' = covariances_ gmm'.
Proof.
  unfold compute_loss.
  destruct (predict_proba gmm (model X_batch)) as [p|e]; [|discriminate].
  cbn [bind].
  destruct (compute_gamma pi (clamp_min eps p)) as [gamma|e] eqn:Eg;
    [|discriminate].
  cbn [bind].
  destruct (fit gmm (model X_batch)) as [g1|e]; [|discriminate]. cbn [bind].
  destruct (loss_of _ _ _ _ _) as [loss0|e] eqn:El; [|discriminate].
  cbn [bind].
  intros [= <- <- <- <-]. exists p. split; [reflexivity|]. split.
  - unfold loss_from_posteriors. rewrite Eg. cbn [bind]. exact El.
  - repeat split; reflexivity.
Qed.

(** C1, amended.  Of two consecutive calls of [compute_loss] on the
    same mixture object, the first refits the mixture on the network's
    output for its batch [X1]; the posteriors that enter gamma and the
    loss of the second call are asked from that mixture, fitted on the
    previous batch, and only afterwards is the mixture refit on the
    network's output for the current batch [X2], which gives the [psi] and
    [Sigma] that the call returns. *)
Theorem posteriors_before_refit
    (model1 model2 : matrix F -> matrix F) (gmm0 gmm1 gmm2 : G)
    (X1 pi1 psi0 Sigma0 psi1 Sigma1 X2 pi2 psi2 Sigma2 : matrix F)
    (loss1 loss2 : F) :
  compute_loss K eps beta flog predict_proba fit means_ covariances_
    model1 gmm0 X1 pi1 psi0 Sigma0 = Ok (psi1, Sigma1, loss1, gmm1) ->
  compute_loss K eps beta flog predict_proba fit means_ covariances_
    model2 gmm1 X2 pi2 psi1 Sigma1 = Ok (psi2, Sigma2, loss2, gmm2) ->
  fit gmm0 (model1 X1) = Ok gmm1 /\
  exists p,
    predict_proba gmm1 (model2 X2) = Ok p /\
    loss_from_posteriors K beta flog (length X2) pi2 (clamp_min eps p)
      = Ok loss2 /\
    fit gmm1 (model2 X2) = Ok gmm2 /\
    psi2 = means_ gmm2 /\ Sigma2 = covariances_ gmm2.
Proof.
  intros H1 H2.
  apply compute_loss_inv in H1. destruct H1 as (p1 & _ & _ & Hf1 & _ & _).
  apply compute_loss_inv in H2. destruct H2 as (p & Hp & Hl & Hf2 & Hpsi & HS).
  split; [exact Hf1|]. exists p. repeat split; assumption.
Qed.

End StepOrder.

Lemma posteriors_before_refit_witness :
  toy_fit gmm_before batch_line = Ok gmm_line /\
  exists p,
    toy_predict_proba gmm_line batch_next = Ok p /\
    @loss_from_posteriors Q exact 2 toy_beta log_stub (length batch_next)
      affinities_line (@clamp_min Q exact toy_eps p) = Ok loss_next /\
    toy_fit gmm_line batch_next = Ok gmm_next /\
    toy_means gmm_next = toy_means gmm_next /\
    toy_covariances gmm_next = toy_covariances gmm_next.
Proof.
  apply (@posteriors_before_refit Q exact 2 toy_eps toy_beta log_stub toy_gmm
           toy_predict_proba toy_fit toy_means toy_covariances
           (fun X => X) (fun X => X) gmm_before gmm_line gmm_next
           batch_line affinities_line
           (toy_means gmm_before) (toy_covariances gmm_before)
           (toy_means gmm_line) (toy_covariances gmm_line)
           batch_next affinities_line
           (toy_means gmm_next) (toy_covariances gmm_next)
           loss_line loss_next).
  - vm_compute. reflexivity.
  - vm_compute. reflexivity.
Defined.

(** C1, as stated, fails.  The mixture [gmm_before] has its means at 0 and
    10.  In a step on [batch_line] the posteriors are asked from it, and
    the refit moves the means to 1 and 4; the posteriors of the refit
    mixture on the same batch are different. *)
Lemma refit_before_posteriors_counterexample :
  toy_predict_proba gmm_before batch_line = Ok posteriors_line
  /\ toy_compute_loss gmm_before batch_line affinities_line
     = Ok (toy_means gmm_line, toy_covariances gmm_line, loss_line, gmm_line)
  /\ toy_predict_proba gmm_line batch_line
     = Ok [[10 # 11; 1 # 11]; [5 # 7; 2 # 7]; [1 # 11; 10 # 11]]%Q
  /\ ~ @refit_before_posteriors_claim Q exact 2 toy_eps toy_beta log_stub
         toy_gmm toy_predict_proba toy_fit toy_means toy_covariances.
Proof.
  assert (toy_compute_loss gmm_before batch_line affinities_line
          = Ok (toy_means gmm_line, toy_covariances gmm_line, loss_line, gmm_line))
    as E by (vm_compute; reflexivity).
  split; [vm_compute; reflexivity|]. split; [exact E|].
  split; [vm_compute; reflexivity|].
  intros H.
  specialize (H (fun X => X) gmm_before gmm_line batch_line affinities_line
                (toy_means gmm_before) (toy_covariances gmm_before)
                (toy_means gmm_line) (toy_covariances gmm_line)
                posteriors_line loss_line E).
  assert (toy_predict_proba gmm_line batch_line = Ok posteriors_line) as A
    by (apply H; vm_compute; reflexivity).
  vm_compute in A. discriminate A.
Qed.

(** ** The metric reported after an epoch *)

Lemma ceil_div_zero (b : nat) : 0 < b -> ceil_div 0 b = 0.
Proof. intros H. unfold ceil_div. apply Nat.div_small. lia. Qed.

Lemma ceil_div_step (n b : nat) :
  0 < b -> 0 < n -> ceil_div n b = S (ceil_div (n - b) b).
Proof.
  intros Hb Hn. unfold ceil_div.
  destruct (Nat.le_gt_cases b n) as [L|L].
  - replace (n + b - 1) with ((n - b + b - 1) + 1 * b) by lia.
    rewrite Nat.div_add by lia. lia.
  - replace (n - b) with 0 by lia. cbn [Nat.add].
    rewrite (Nat.div_small (b - 1) b) by lia.
    replace (n + b - 1) with ((n - 1) + 1 * b) by lia.
    rewrite Nat.div_add by lia. rewrite Nat.div_small by lia. reflexivity.
Qed.

Lemma chunks_fuel_length (b fuel : nat) (l : list nat) :
  0 < b -> length l <= fuel ->
  length (chunks_fuel b fuel l) = ceil_div (length l) b.
Proof.
  intros Hb. revert l. induction fuel as [|fuel IH]; intros l Hl.
  - destruct l; [|cbn in Hl; lia]. cbn. now rewrite ceil_div_zero.
  - destruct l as [|a l]; [cbn; now rewrite ceil_div_zero|].
    cbn [chunks_fuel]. change (length (firstn b (a :: l) :: ?t)) with (S (length t)).
    rewrite (@ceil_div_step (length (a :: l)) b) by (cbn; lia).
    cbn [length]. f_equal. rewrite IH.
    + now rewrite length_skipn.
    + rewrite length_skipn. cbn [length] in *. lia.
Qed.



Section EpochMetric.
Context {FD : Type} {F : Type} {SF : Scalar F}.
Variable batch_size : nat.
Variable dataset : list (Z * list FD).


End EpochMetric.


(** ** Rows that the loader refuses *)

Lemma split_space_once (s : string) :
  match split_once s with
  | (a, None) => split_space s = [a]
  | (a, Some b) => split_space s = a :: split_space b
  end.
Proof.
  induction s as [|c s IH]; cbn; [reflexivity|].
  destruct (Ascii.eqb c " "); [reflexivity|].
  destruct (split_once s) as [a [b|]]; now rewrite IH.
Qed.

Lemma split_space_nonempty (s : string) : split_space s <> [].
Proof.
  destruct s as [|c s]; cbn; [discriminate|].
  destruct (Ascii.eqb c " "); [discriminate|].
  destruct (split_space s); discriminate.
Qed.

(** A row that [split(" ", 1)] cuts in two has at least two fields, and
    the first part is its first field. *)
Lemma split_space_1_pair (row k v : string) :
  split_space_1 row = [k; v] -> 2 <= fields row /\ node_id row = k.
Proof.
  unfold split_space_1, fields, node_id.
  pose proof (split_space_once row) as H.
  destruct (split_once row) as [a [b|]]; [|discriminate].
  intros [= -> ->]. rewrite H. cbn [length hd]. split; [|reflexivity].
  pose proof (@split_space_nonempty v). destruct (split_space v); [contradiction|].
  cbn. lia.
Qed.

Section DictLemmas.
Context {A B : Type}.
Variable eqb : A -> A -> bool.
Hypothesis eqb_eq : forall x y, eqb x y = true <-> x = y.

Lemma dict_set_keys (k k' : A) (v : B) (d : list (A * B)) :
  In k' (map fst (dict_set eqb k v d)) <-> k' = k \/ In k' (map fst d).
Proof.
  induction d as [|[k0 v0] d IH]; cbn.
  - intuition congruence.
  - destruct (eqb k0 k) eqn:E; cbn.
    + apply eqb_eq in E. subst. intuition congruence.
    + rewrite IH. intuition congruence.
Qed.

End DictLemmas.

Section LoaderProperties.
Context {FD : Type} {F : Type}.
Variable to_float : FD -> F.
Variable py_int : string -> option Z.
Variable np_float : string -> option FD.

Lemma dict_of_pairs_raises (rows : list (list string)) (d : list (string * string))
    (e : exn) :
  dict_of_pairs rows d = Raise e -> exists msg, e = ValueError msg.
Proof.
  revert d. induction rows as [|r rows IH]; intros d; cbn; [discriminate|].
  destruct r as [|k [|v [|w r]]]; try (intros [= <-]; eauto).
  apply IH.
Qed.

Lemma dict_of_pairs_keys (rows : list (list string)) (d d' : list (string * string)) :
  dict_of_pairs rows d = Ok d' ->
  (forall k, In k (map fst d) -> In k (map fst d')) /\
  (forall r, In r rows -> exists k v, r = [k; v] /\ In k (map fst d')).
Proof.
  revert d. induction rows as [|r rows IH]; intros d; cbn.
  - intros [= <-]. split; [auto | contradiction].
  - destruct r as [|k [|v [|w r]]]; try discriminate.
    intros H. apply IH in H. destruct H as [Hd Hr]. split.
    + intros k0 Hk0. apply Hd. apply (dict_set_keys String.eqb String.eqb_eq).
      now right.
    + intros r [<-|Hin]; [|now apply Hr].
      exists k, v. split; [reflexivity|]. apply Hd.
      apply (dict_set_keys String.eqb String.eqb_eq). now left.
Qed.

Lemma parse_floats_raises (ws : list string) (e : exn) :
  parse_floats np_float ws = Raise e -> exists msg, e = ValueError msg.
Proof.
  induction ws as [|w ws IH]; cbn; [discriminate|].
  destruct (np_float w); [|intros [= <-]; eauto].
  destruct (parse_floats np_float ws); [discriminate|].
  cbn. intros [= <-]. now apply IH.
Qed.

Lemma convert_items_raises (items : list (string * string)) (d : list (Z * list FD))
    (e : exn) :
  convert_items py_int np_float items d = Raise e -> exists msg, e = ValueError msg.
Proof.
  revert d. induction items as [|[num v] items IH]; intros d; cbn; [discriminate|].
  destruct (py_int num); [|intros [= <-]; eauto].
  unfold vectorize. destruct (parse_floats np_float (split_space v)) eqn:E; cbn.
  - apply IH.
  - intros [= <-]. eapply parse_floats_raises; eauto.
Qed.

Lemma convert_items_bad_key (items : list (string * string)) (d : list (Z * list FD))
    (k : string) :
  In k (map fst items) -> py_int k = None ->
  exists msg, convert_items py_int np_float items d = Raise (ValueError msg).
Proof.
  intros Hin Hk. destruct (convert_items py_int np_float items d) as [d'|e] eqn:E.
  - exfalso. revert d E. induction items as [|[num v] items IH]; intros d; cbn.
    + contradiction.
    + destruct (py_int num) eqn:En; [|discriminate].
      destruct (vectorize np_float v); [|discriminate]. cbn.
      destruct Hin as [Hk'|Hin]; [cbn in Hk'; congruence|].
      now apply IH.
  - apply convert_items_raises in E. destruct E as [msg ->]. eauto.
Qed.

(** A file with a data row that has no space, so fewer than two fields, or
    whose first field is not an integer for [int], is refused by the
    loader. *)
Lemma load_rejects_row_without_id (lines : list string) (row : string) :
  In row (tl lines) ->
  fields row < 2 \/ py_int (node_id row) = None ->
  exists msg,
    load_embeddings to_float py_int np_float lines = Raise (ValueError msg).
Proof.
  intros Hin Hbad. destruct lines as [|header skipgram]; [contradiction|].
  cbn [tl] in Hin. cbn [load_embeddings]. unfold skipgram2dict.
  destruct (dict_of_pairs (map split_space_1 skipgram) []) as [d|e] eqn:Ed.
  - cbn [bind]. apply dict_of_pairs_keys in Ed. destruct Ed as [_ Hrows].
    destruct (Hrows (split_space_1 row)) as (k & v & Hkv & Hk).
    { now apply in_map. }
    apply split_space_1_pair in Hkv. destruct Hkv as [Hf Hid].
    destruct Hbad as [Hbad|Hbad]; [lia|]. rewrite Hid in Hbad.
    destruct (@convert_items_bad_key d [] k Hk Hbad) as [msg ->].
    cbn [bind]. eauto.
  - cbn [bind]. apply dict_of_pairs_raises in Ed. destruct Ed as [msg ->]. eauto.
Qed.

End LoaderProperties.

Section NotebookProperties.
Context {FD : Type} {SD : Scalar FD} {F : Type} {SF : Scalar F}.
Variable to_float : FD -> F.
Variable py_int : string -> option Z.
Variable np_float : string -> option FD.
Variables (K batch_size num_epochs : nat) (eps beta : F).
Variable flog : F -> F.
Variable G : Type.
Variable predict_proba : G -> matrix F -> result (matrix F).
Variable fit : G -> matrix F -> result G.
Variables means_ covariances_ : G -> matrix F.
Variable gmm_new : G.
Variable Theta : Type.
Variable forward : Theta -> matrix F -> matrix F.
Variable sgd_step : Theta -> matrix F -> F -> Theta.
Variable requires_grad : bool.
Variable sampler : nat -> list nat.

(** C5, amended.  If the embedding file has a data row with fewer than two
    space-separated fields, or a data row whose first field is not an
    integer for [int], reading it raises [ValueError], and the run of the
    notebook ends with that error, before the mixture is fitted and before
    any training step. *)
Theorem notebook_rejects_row_without_id (lines : list string) (row : string) :
  In row (tl lines) ->
  fields row < 2 \/ py_int (node_id row) = None ->
  exists msg,
    load_embeddings to_float py_int np_float lines = Raise (ValueError msg) /\
    forall theta0 : Theta,
      notebook to_float py_int np_float K batch_size num_epochs eps beta flog
        predict_proba fit means_ covariances_ gmm_new forward sgd_step
        requires_grad sampler lines theta0 = Raise (ValueError msg).
Proof.
  intros Hin Hbad.
  destruct (@load_rejects_row_without_id FD F to_float py_int np_float lines row
              Hin Hbad) as [msg Hload].
  exists msg. split; [exact Hload|]. intros theta0.
  unfold notebook. rewrite Hload. reflexivity.
Qed.

End NotebookProperties.

Lemma notebook_rejects_row_without_id_witness :
  exists msg,
    @load_embeddings Q Q (fun a => a) int_literal float_literal file_bad_row
      = Raise (ValueError msg) /\
    forall theta0 : unit,
      @notebook Q exact Q exact (fun a => a) int_literal float_literal
        2 3 1 toy_eps toy_beta log_stub toy_gmm
        toy_predict_proba toy_fit toy_means toy_covariances gmm_before
        unit (fun _ X => X) (fun t _ _ => t) true toy_sampler
        file_bad_row theta0 = Raise (ValueError msg).
Proof.
  apply (@notebook_rejects_row_without_id Q exact Q exact (fun a => a)
           int_literal float_literal 2 3 1 toy_eps toy_beta log_stub toy_gmm
           toy_predict_proba toy_fit toy_means toy_covariances gmm_before
           unit (fun _ X => X) (fun t _ _ => t) true toy_sampler
           file_bad_row (append "1" newline)).
  - cbn. right. left. reflexivity.
  - left. vm_compute. lia.
Defined.

(** C5, as stated, fails: the two data rows of [file_short_rows] have
    three fields, fewer than the 401 of an embedding of dimension 400, and
    the loader returns the data set and a 2 by 2 tensor. *)
Lemma short_row_rejected_counterexample :
  @load_embeddings Q Q (fun a => a) int_literal float_literal file_short_rows
    = Ok ([(0%Z, [1; 2]%Q); (1%Z, [3; 4]%Q)], [[1; 2]; [3; 4]]%Q)
  /\ ~ @short_row_rejected_claim Q Q (fun a => a) int_literal float_literal 400.
Proof.
  assert (@load_embeddings Q Q (fun a => a) int_literal float_literal file_short_rows
          = Ok ([(0%Z, [1; 2]%Q); (1%Z, [3; 4]%Q)], [[1; 2]; [3; 4]]%Q)) as E
    by (vm_compute; reflexivity).
  split; [exact E|]. intros H.
  destruct (H file_short_rows (append "0 1 2" newline)) as [e He].
  - cbn. left. reflexivity.
  - vm_compute. lia.
  - rewrite E in He. discriminate He.
Qed.

(** ** Shapes and labels of KMeans *)

Section KMeansShapes.
Context {F : Type} {SF : Scalar F}.

Lemma argmin_from_bound (l : list F) (i bi : nat) (bv : F) :
  bi < i -> argmin_from l i bi bv < i + length l.
Proof.
  revert i bi bv. induction l as [|a l IH]; intros i bi bv H; cbn.
  - lia.
  - destruct (better a bv).
    + specialize (IH (S i) i a). lia.
    + specialize (IH (S i) bi bv). lia.
Qed.

Lemma argmin_bound (row : list F) (i : nat) :
  argmin row = Ok i -> i < length row.
Proof.
  destruct row as [|a l]; [discriminate|]. cbn. intros [= <-].
  pose proof (@argmin_from_bound l 1 0 a). lia.
Qed.

Lemma argmin_rows_bounds (m : matrix F) (cl : list nat) (k : nat) :
  Forall (fun r => length r = k) m ->
  argmin_rows m = Ok cl ->
  length cl = length m /\ Forall (fun i => i < k) cl.
Proof.
  intros Hm. revert cl. induction Hm as [|r m Hr _ IH]; intros cl; cbn.
  - intros [= <-]. split; [reflexivity | constructor].
  - destruct (argmin r) as [i|e] eqn:Ei; [|discriminate]. cbn.
    destruct (argmin_rows m) as [rest|e]; [|discriminate]. cbn.
    intros [= <-]. destruct (IH rest eq_refl) as [Hl Hb].
    split; [cbn; lia|]. constructor; [|exact Hb].
    apply argmin_bound in Ei. lia.
Qed.

Lemma assign_col_length (c : matrix F) (d : nat) (t : list F) (c' : matrix F) :
  assign_col c d t = Ok c' -> length c' = length c.
Proof.
  unfold assign_col. destruct (Nat.eqb_spec (length t) (length c)) as [E|E].
  - intros [= <-]. rewrite length_map, length_combine. lia.
  - destruct t as [|a [|b t]]; try discriminate.
    intros [= <-]. now rewrite length_map.
Qed.

Lemma update_centroids_length (x : matrix F) (cl : list nat) (Ncl : list F)
    (ds : list nat) (c c' : matrix F) :
  update_centroids x c cl Ncl ds = Ok c' -> length c' = length c.
Proof.
  revert c. induction ds as [|d ds IH]; intros c; cbn.
  - now intros [= <-].
  - destruct (assign_col c d _) as [c1|e] eqn:E; [|discriminate]. cbn.
    intros H. apply IH in H. apply assign_col_length in E. lia.
Qed.

Lemma distances_rect (x c : matrix F) :
  rect (length x) (length c) (distances x c).
Proof.
  unfold distances. split; [now rewrite length_map|].
  apply Forall_map, Forall_forall. intros xi _. now rewrite length_map.
Qed.

Lemma normalize_shape (v nz : matrix F) (M K : nat) :
  rect M K v -> normalize v = Ok nz -> rect M K nz /\ 1 <= M.
Proof.
  intros Hv. unfold normalize.
  destruct (concat v) as [|a l] eqn:E; [discriminate|]. cbn [tmin tmax bind].
  destruct (flt f0 _); [|discriminate]. intros [= <-].
  split; [now apply rect_map|].
  destruct Hv as [Hl _]. destruct v; [discriminate|]. cbn in Hl. lia.
Qed.

(** What a pass that completes returns: one label per sample, each below
    the number of centroids, and one row of affinities per sample with one
    entry per centroid; there is at least one sample and one centroid, and
    the new centroids are as many as the old. *)
Lemma kmeans_iter_shapes (x c c' : matrix F) (cl : list nat) (pi : matrix F) :
  kmeans_iter x c = Ok (cl, pi, c') ->
  1 <= length x /\ 1 <= length c /\ length c' = length c /\
  length cl = length x /\
  Forall (fun i => i < length c) cl /\
  rect (length x) (length c) pi.
Proof.
  unfold kmeans_iter, argmin_dim1.
  destruct (Nat.eqb_spec (length c) 0) as [E0|E0]; [discriminate|].
  destruct (argmin_rows (distances x c)) as [cl0|e] eqn:Ea; [|discriminate].
  cbn [bind].
  destruct (normalize (distances x c)) as [nz|e] eqn:En; [|discriminate].
  cbn [bind].
  destruct (update_centroids _ _ _ _ _) as [c0|e] eqn:Eu; [|discriminate].
  cbn [bind]. intros [= <- <- <-].
  pose proof (distances_rect x c) as Hd.
  apply (argmin_rows_bounds (proj2 Hd)) in Ea. destruct Ea as [Hl Hb].
  rewrite (proj1 Hd) in Hl.
  apply (normalize_shape Hd) in En. destruct En as [Hnz HM].
  apply update_centroids_length in Eu.
  repeat split; try assumption; try lia.
  - now rewrite length_map, (proj1 Hnz).
  - apply Forall_map. eapply Forall_impl; [|exact (proj2 Hnz)].
    intros r Hr. now rewrite length_map.
Qed.

(** The loop keeps the number of centroids; what it returns was computed
    by its last pass from centroids of that number. *)
Lemma kmeans_loop_shapes (Niter : nat) (x c : matrix F) last cl pi :
  kmeans_loop Niter x c last = Ok (cl, pi) ->
  (Niter = 0 /\ last = Some (cl, pi)) \/
  (1 <= Niter /\
   exists c0 c', length c0 = length c /\ kmeans_iter x c0 = Ok (cl, pi, c')).
Proof.
  revert c last. induction Niter as [|n IH]; intros c last; cbn.
  - destruct last as [r|]; [|discriminate]. intros [= ->]. now left.
  - destruct (kmeans_iter x c) as [[[cl1 pi1] c1]|e] eqn:E; [|discriminate].
    cbn. intros H. apply IH in H. right. split; [lia|].
    destruct H as [[-> [= -> ->]]|(_ & c0 & c' & Hl & H)].
    + exists c, c1. now split.
    + exists c0, c'. split; [|exact H].
      apply kmeans_iter_shapes in E. destruct E as (_ & _ & E & _). lia.
Qed.

(** X1.  When KMeans returns, it ran at least one pass on a batch with at
    least one sample and for at least one cluster; it returns one label per
    sample, each label below [min K N] for a batch of [N] samples, and an
    [N] by [min K N] matrix of soft affinities. *)
Theorem KMeans_shapes (x : matrix F) (K Niter : nat)
    (cl : list nat) (pi : matrix F) :
  KMeans x K Niter = Ok (cl, pi) ->
  1 <= Niter /\ 1 <= K /\ 1 <= length x /\
  length cl = length x /\
  Forall (fun i => i < Nat.min K (length x)) cl /\
  rect (length x) (Nat.min K (length x)) pi.
Proof.
  unfold KMeans. intros H. apply kmeans_loop_shapes in H.
  destruct H as [[_ [=]]|(Hn & c0 & c' & Hl & H)].
  apply kmeans_iter_shapes in H.
  rewrite length_firstn in Hl. rewrite Hl in H.
  destruct H as (Hx & Hc & _ & Hcl & Hb & Hpi).
  split; [exact Hn|]. split; [lia|]. split; [exact Hx|].
  split; [exact Hcl|]. split; [exact Hb | exact Hpi].
Qed.

End KMeansShapes.

Lemma KMeans_shapes_witness :
  1 <= 1 /\ 1 <= 3 /\ 1 <= length batch_005 /\
  length [0; 0; 2] = length batch_005 /\
  Forall (fun i => i < Nat.min 3 (length batch_005)) [0; 0; 2] /\
  rect (length batch_005) (Nat.min 3 (length batch_005))
    (map (map (fun a => @fsub _ binary32 (@f1 _ binary32) a))
       [[z32 0; z32 0; z32 1]; [z32 0; z32 0; z32 1]; [z32 1; z32 1; z32 0]]).
Proof.
  apply (@KMeans_shapes spec_float binary32 batch_005 3 1 [0; 0; 2]).
  vm_compute. reflexivity.
Defined.

(** ** Batches on which KMeans cannot return *)

Section KMeansEqualRows.
Context {F : Type} {SF : Scalar F}.
Hypothesis fsub_diag_not_pos : forall a : F, flt f0 (fsub a a) = false.

Lemma argmin_rows_total (m : matrix F) :
  Forall (fun r => r <> []) m -> exists cl, argmin_rows m = Ok cl.
Proof.
  induction 1 as [|r m Hr _ [cl IH]]; cbn; [eauto|].
  destruct r as [|a l]; [contradiction|]. cbn. rewrite IH. cbn. eauto.
Qed.

Lemma firstn_In {A : Type} (k : nat) (l : list A) (y : A) :
  In y (firstn k l) -> In y l.
Proof.
  intros H. rewrite <- (firstn_skipn k l). apply in_or_app. now left.
Qed.

Lemma pass_equal_rows (x c : matrix F) (r : list F) :
  x <> [] -> c <> [] -> Forall (eq r) x -> Forall (eq r) c ->
  kmeans_iter x c = Raise (NameError "vector").
Proof.
  intros Hx Hc Hxr Hcr. unfold kmeans_iter, argmin_dim1.
  destruct (Nat.eqb_spec (length c) 0) as [E|E];
    [destruct c; [contradiction | discriminate]|].
  destruct (@argmin_rows_total (distances x c)) as [cl ->].
  { unfold distances. apply Forall_map, Forall_forall. intros xi _.
    destruct c; [contradiction | discriminate]. }
  cbn [bind].
  rewrite (@normalize_constant F SF fsub_diag_not_pos (sqdist r r)).
  - reflexivity.
  - destruct x as [|xi x]; [contradiction|]. destruct c as [|cj c]; [contradiction|].
    discriminate.
  - unfold distances. clear Hx Hc.
    induction Hxr as [|xi x <- _ IH]; cbn; [constructor|].
    apply Forall_app. split; [|exact IH].
    apply Forall_map. eapply Forall_impl; [|exact Hcr]. now intros cj <-.
Qed.

(** X2.  On a batch with at least one sample whose rows are all equal, in
    particular on a batch of a single sample, KMeans with at least one
    cluster and at least one pass raises [NameError]: all distances are
    equal, and [normalize] reads the unbound name. *)
Theorem KMeans_equal_rows_raise (x : matrix F) (r : list F) (K Niter : nat) :
  x <> [] -> Forall (eq r) x -> 1 <= K -> 1 <= Niter ->
  KMeans x K Niter = Raise (NameError "vector").
Proof.
  intros Hx Hr HK Hn. unfold KMeans.
  destruct Niter as [|n]; [lia|]. cbn [kmeans_loop].
  rewrite (@pass_equal_rows x (firstn K x) r); trivial.
  - destruct x; [contradiction|]. destruct K; [lia | discriminate].
  - rewrite Forall_forall in Hr |- *. intros y Hy.
    apply Hr. eapply firstn_In; eauto.
Qed.

End KMeansEqualRows.

Lemma KMeans_equal_rows_raise_witness :
  @KMeans _ binary32 batch_equal 2 10 = Raise (NameError "vector").
Proof.
  apply (@KMeans_equal_rows_raise spec_float binary32
           (ieee_fsub_diag_not_pos 24 128) batch_equal [z32 1; z32 2] 2 10).
  - discriminate.
  - repeat constructor.
  - lia.
  - lia.
Defined.

(** ** NaN in the argument of normalize *)

Section NormalizeNaN.
Context {F : Type} {SF : Scalar F}.
Hypothesis flt_nan : forall a b : F, fnan b = true -> flt a b = false.
Hypothesis fsub_nan : forall a b : F, fnan b = true -> fnan (fsub a b) = true.

Lemma fold_fmin2_nan (l : list F) (a : F) :
  fnan a = true \/ Exists (fun b => fnan b = true) l ->
  fnan (fold_left fmin2 l a) = true.
Proof.
  revert a. induction l as [|b l IH]; intros a [Ha|Hl]; cbn.
  - exact Ha.
  - inversion Hl.
  - apply IH. left. unfold fmin2. now rewrite Ha.
  - apply IH. inversion Hl as [? ? Hb|? ? Hl']; subst.
    + left. unfold fmin2. destruct (fnan a) eqn:Ha; [exact Ha|]. now rewrite Hb.
    + now right.
Qed.

(** X3.  If an entry of the tensor is NaN, [normalize] raises [NameError]:
    the minimum is NaN, so is the range, and the test [range_v > 0]
    fails. *)
Theorem normalize_nan_raises (v : matrix F) (a : F) :
  In a (concat v) -> fnan a = true ->
  normalize v = Raise (NameError "vector").
Proof.
  intros Hin Ha. unfold normalize.
  destruct (concat v) as [|b l] eqn:E; [contradiction|]. cbn [tmin tmax bind].
  rewrite flt_nan; [reflexivity|]. apply fsub_nan, fold_fmin2_nan.
  destruct Hin as [->|Hin]; [now left|]. right.
  apply Exists_exists. eauto.
Qed.

End NormalizeNaN.

Lemma ieee_fsub_nan (prec emax : Z) (a b : spec_float) :
  SF_is_nan b = true -> SF_is_nan (SFsub prec emax a b) = true.
Proof.
  destruct b; try discriminate. intros _. now destruct a.
Qed.

Lemma normalize_nan_raises_witness :
  @normalize _ binary32 tensor_nan = Raise (NameError "vector").
Proof.
  apply (@normalize_nan_raises spec_float binary32
           SFltb_nan_r (ieee_fsub_nan 24 128) tensor_nan S754_nan).
  - cbn. right. left. reflexivity.
  - reflexivity.
Defined.

(** ** The new centroids *)

Section CentroidValues.
Context {F : Type} {SF : Scalar F}.

Lemma bin_weight_labelled (b : nat) (cl : list nat) (w : list F) (acc : F) :
  bin_weight b cl w acc = fold_left fadd (labelled b cl w) acc.
Proof.
  unfold labelled. revert w acc. induction cl as [|k cl IH]; intros w acc.
  - reflexivity.
  - destruct w as [|a w]; [reflexivity|]. cbn.
    destruct (Nat.eqb k b); cbn; apply IH.
Qed.

Lemma nbins_le (cl : list nat) (n : nat) :
  cl <> [] -> Forall (fun i => i < n) cl -> nbins cl <= n.
Proof.
  intros Hne H. unfold nbins. destruct cl as [|k cl]; [contradiction|].
  clear Hne. remember (k :: cl) as l eqn:E.
  assert (l <> []) as Hl by (subst; discriminate). clear E.
  induction H as [|a l Ha H IH]; [contradiction|].
  cbn. destruct l as [|b l]; [cbn; lia|].
  specialize (IH ltac:(discriminate)). cbn in *. lia.
Qed.

Lemma quotient_length (x : matrix F) (cl : list nat) (d : nat) :
  length (tdiv (bincount_weights cl (col x d)) (map fcount (bincount cl)))
  = nbins cl.
Proof.
  rewrite tdiv_length; unfold bincount_weights, bincount;
    now rewrite ?length_map, ?length_seq.
Qed.

Lemma quotient_nth (x : matrix F) (cl : list nat) (j d : nat) :
  j < nbins cl ->
  nth j (tdiv (bincount_weights cl (col x d)) (map fcount (bincount cl))) f0
  = fdiv (tsum (labelled j cl (col x d))) (fcount (count_occ Nat.eq_dec cl j)).
Proof.
  intros Hj.
  rewrite tdiv_nth;
    [| unfold bincount_weights, bincount; now rewrite !length_map, !length_seq
     | unfold bincount_weights; now rewrite length_map, length_seq].
  unfold bincount_weights, bincount. rewrite map_map.
  rewrite !map_seq_nth by exact Hj.
  now rewrite bin_weight_labelled.
Qed.

(** The loop over the columns, when every assignment sets entry [d] of row
    [j] to [val j d]. *)
Lemma update_centroids_values (x : matrix F) (cl : list nat) (Ncl : list F)
    (val : nat -> nat -> F) (ds : list nat) (c c' : matrix F) :
  (forall c0 d c1,
     assign_col c0 d (tdiv (bincount_weights cl (col x d)) Ncl) = Ok c1 ->
     forall j, j < length c0 ->
       nth j c1 [] = set_nth (nth j c0 []) d (val j d)) ->
  NoDup ds ->
  update_centroids x c cl Ncl ds = Ok c' ->
  forall j d, j < length c -> In d ds -> d < length (nth j c []) ->
    nth d (nth j c' []) f0 = val j d.
Proof.
  intros Hassign.
  assert (forall ds c c', update_centroids x c cl Ncl ds = Ok c' ->
            forall j d, j < length c -> ~ In d ds ->
              length (nth j c' []) = length (nth j c []) /\
              nth d (nth j c' []) f0 = nth d (nth j c []) f0) as Hkeep.
  { clear ds c c'. induction ds as [|d0 ds IH]; intros c c'; cbn.
    - intros [= <-]. now split.
    - destruct (assign_col c d0 _) as [c1|e] eqn:E1; [|discriminate]. cbn.
      intros H j d Hj Hd.
      pose proof (assign_col_length _ _ _ E1) as Hl.
      destruct (IH c1 c' H j d ltac:(lia) ltac:(tauto)) as [A B].
      rewrite (Hassign _ _ _ E1 j Hj) in A, B.
      rewrite set_nth_length in A. split; [exact A|].
      rewrite B. apply set_nth_other. intros ->. apply Hd. now left. }
  revert c. induction ds as [|d0 ds IH]; intros c Hnd; cbn; [contradiction|].
  destruct (assign_col c d0 _) as [c1|e] eqn:E1; [|discriminate]. cbn.
  intros H j d Hj Hin Hd. inversion Hnd as [|? ? Hnotin Hnd']; subst.
  pose proof (assign_col_length _ _ _ E1) as Hl.
  pose proof (Hassign _ _ _ E1 j Hj) as Hrow.
  destruct Hin as [<-|Hin].
  - destruct (Hkeep ds c1 c' H j d0 ltac:(lia) Hnotin) as [_ B].
    rewrite B, Hrow. now apply set_nth_same.
  - apply (IH c1 Hnd' H); [lia | exact Hin|].
    now rewrite Hrow, set_nth_length.
Qed.

Lemma assign_col_rows (c : matrix F) (d : nat) (t : list F) (c1 : matrix F) :
  assign_col c d t = Ok c1 ->
  forall j, j < length c ->
    nth j c1 [] = set_nth (nth j c []) d (nth (if Nat.eqb (length t) 1 then 0 else j) t f0).
Proof.
  unfold assign_col. destruct (Nat.eqb_spec (length t) (length c)) as [E|E].
  - intros [= <-] j Hj.
    rewrite (nth_indep _ [] (set_nth (fst (@nil F, f0)) d (snd (@nil F, f0))))
      by (rewrite length_map, length_combine; lia).
    rewrite (map_nth (fun rt : list F * F => set_nth (fst rt) d (snd rt))).
    rewrite combine_nth by lia. cbn [fst snd].
    destruct (Nat.eqb_spec (length t) 1) as [E1|E1]; [|reflexivity].
    replace j with 0 by lia. reflexivity.
  - destruct t as [|a [|b t]]; try discriminate.
    intros [= <-] j Hj. cbn [length Nat.eqb nth].
    rewrite (nth_indep _ [] (set_nth [] d a)) by (now rewrite length_map).
    now rewrite (map_nth (fun r => set_nth r d a)).
Qed.

(** X4.  In a pass that completes and gives some sample a label other than
    0, coordinate [d] of the new centroid [j] is the sum of coordinate [d]
    of the samples labelled [j], in sample order, divided by the number of
    those samples. *)
Theorem new_centroid_is_mean (x c c' : matrix F) (cl : list nat) (pi : matrix F)
    (j d : nat) :
  kmeans_iter x c = Ok (cl, pi, c') ->
  (exists i, In i cl /\ 1 <= i) ->
  j < length c -> d < ncols x -> length (nth j c []) = ncols x ->
  nth d (nth j c' []) f0
  = fdiv (tsum (labelled j cl (col x d))) (fcount (count_occ Nat.eq_dec cl j)).
Proof.
  intros H (i & Hi & Hi1) Hj Hd Hrow. unfold kmeans_iter in H.
  destruct (argmin_dim1 (length c) (distances x c)) as [cl0|e]; [|discriminate].
  cbn [bind] in H.
  destruct (normalize (distances x c)) as [nz|e]; [|discriminate].
  cbn [bind] in H.
  destruct (update_centroids _ _ _ _ _) as [c0|e] eqn:E; [|discriminate].
  cbn [bind] in H. injection H as -> _ ->.
  assert (2 <= nbins cl) as Hb by (apply nbins_gt in Hi; lia).
  assert (nbins cl = length c) as Hn.
  { destruct (ncols x) as [|n] eqn:En; [lia|]. cbn [seq update_centroids] in E.
    destruct (assign_col c 0 _) as [c1|e] eqn:E1; [|discriminate].
    apply assign_col_ok in E1; [|rewrite quotient_length; lia].
    destruct E1 as [E1 _]. now rewrite quotient_length in E1. }
  rewrite <- quotient_nth by lia.
  apply (@update_centroids_values x cl (map fcount (bincount cl))
           (fun j d => nth j (tdiv (bincount_weights cl (col x d))
                                (map fcount (bincount cl))) f0)
           (seq 0 (ncols x)) c c').
  - intros c0 d0 c1 E1 j0 Hj0.
    rewrite (@assign_col_rows _ _ _ _ E1 j0 Hj0), quotient_length.
    destruct (Nat.eqb_spec (nbins cl) 1); [lia | reflexivity].
  - apply seq_NoDup.
  - exact E.
  - exact Hj.
  - apply in_seq. lia.
  - lia.
Qed.

(** X5.  In a pass that completes and labels every sample 0, coordinate
    [d] of every new centroid, not only of centroid 0, is the sum of
    coordinate [d] of all samples divided by the number of samples: the
    single quotient is broadcast to all rows. *)
Theorem single_label_broadcasts_mean (x c c' : matrix F) (cl : list nat)
    (pi : matrix F) (j d : nat) :
  kmeans_iter x c = Ok (cl, pi, c') ->
  Forall (fun i => i = 0) cl ->
  j < length c -> d < ncols x -> length (nth j c []) = ncols x ->
  nth d (nth j c' []) f0 = fdiv (tsum (col x d)) (fcount (length x)).
Proof.
  intros H Hall Hj Hd Hrow.
  pose proof (kmeans_iter_shapes _ _ H) as (Hx & _ & _ & Hcl & _ & _).
  unfold kmeans_iter in H.
  destruct (argmin_dim1 (length c) (distances x c)) as [cl0|e]; [|discriminate].
  cbn [bind] in H.
  destruct (normalize (distances x c)) as [nz|e]; [|discriminate].
  cbn [bind] in H.
  destruct (update_centroids _ _ _ _ _) as [c0|e] eqn:E; [|discriminate].
  cbn [bind] in H. injection H as -> _ ->.
  assert (nbins cl = 1) as Hn.
  { assert (cl <> []) as Hne by (destruct cl; [cbn in Hcl; lia | discriminate]).
    pose proof (nbins_le Hne (n := 1)) as Hle.
    assert (0 < nbins cl) by (destruct cl; [contradiction | cbn; lia]).
    assert (nbins cl <= 1); [|lia].
    apply Hle. eapply Forall_impl; [|exact Hall]. intros a Ha. cbn in Ha. subst a. lia. }
  assert (labelled 0 cl (col x d) = col x d) as Hlab.
  { unfold labelled.
    assert (length (col x d) = length cl) as Hlen
      by (unfold col; rewrite length_map; lia).
    revert Hall Hlen. generalize (col x d). clear.
    induction cl as [|k cl IH]; intros w Hall Hlen.
    - destruct w; [reflexivity | discriminate].
    - destruct w as [|a w]; [discriminate|].
      inversion Hall as [|? ? -> Hall']; subst. cbn.
      f_equal. apply IH; [exact Hall' | cbn in Hlen; lia]. }
  assert (count_occ Nat.eq_dec cl 0 = length x) as Hcount.
  { rewrite <- Hcl. clear - Hall. induction Hall as [|k cl -> _ IH]; [reflexivity|].
    cbn. now rewrite IH. }
  rewrite <- Hlab, <- Hcount, <- quotient_nth by lia.
  apply (@update_centroids_values x cl (map fcount (bincount cl))
           (fun j d => nth 0 (tdiv (bincount_weights cl (col x d))
                                (map fcount (bincount cl))) f0)
           (seq 0 (ncols x)) c c').
  - intros c0 d0 c1 E1 j0 Hj0.
    rewrite (@assign_col_rows _ _ _ _ E1 j0 Hj0), quotient_length, Hn.
    reflexivity.
  - apply seq_NoDup.
  - exact E.
  - exact Hj.
  - apply in_seq. lia.
  - lia.
Qed.

(** X6.  A pass on data of dimension at least one raises [RuntimeError]
    when some sample has a label other than 0 and no sample has the last
    label [K - 1]: [bincount] returns between 2 and [K - 1] entries, which
    cannot be assigned to a column of [K] centroids. *)
Theorem unpopulated_last_cluster_raises (x c nz : matrix F) (cl : list nat) :
  argmin_dim1 (length c) (distances x c) = Ok cl ->
  normalize (distances x c) = Ok nz ->
  (exists i, In i cl /\ 1 <= i) ->
  Forall (fun i => S i < length c) cl ->
  1 <= ncols x ->
  exists msg, kmeans_iter x c = Raise (RuntimeError msg).
Proof.
  intros Ha Hn (i & Hi & Hi1) Hall Hd. unfold kmeans_iter.
  rewrite Ha, Hn. cbn [bind].
  destruct (ncols x) as [|n]; [lia|]. cbn [seq update_centroids].
  assert (2 <= nbins cl) as Hb by (apply nbins_gt in Hi; lia).
  assert (S (nbins cl) <= length c) as Hlt.
  { assert (cl <> []) as Hne by (intros ->; contradiction).
    destruct (length c) as [|k]; [inversion Hall; subst; [contradiction | lia]|].
    apply le_n_S. apply (nbins_le Hne).
    eapply Forall_impl; [|exact Hall]. cbn. intros; lia. }
  unfold assign_col. rewrite quotient_length.
  destruct (Nat.eqb_spec (nbins cl) (length c)) as [E|E]; [lia|].
  pose proof (quotient_length x cl 0) as Hq.
  destruct (tdiv _ _) as [|a [|b t]]; cbn in Hq; try lia; cbn; eauto.
Qed.

End CentroidValues.

Lemma new_centroid_is_mean_witness :
  nth 0 (nth 2 [[z32 0]; [S754_nan]; [z32 5]] []) (@f0 _ binary32)
  = @fdiv _ binary32
      (@tsum _ binary32 (labelled 2 [0; 0; 2] (@col _ binary32 batch_005 0)))
      (@fcount _ binary32 (count_occ Nat.eq_dec [0; 0; 2] 2)).
Proof.
  apply (@new_centroid_is_mean spec_float binary32 batch_005 batch_005
           [[z32 0]; [S754_nan]; [z32 5]] [0; 0; 2]
           (map (map (fun a => @fsub _ binary32 (@f1 _ binary32) a))
              [[z32 0; z32 0; z32 1]; [z32 0; z32 0; z32 1];
               [z32 1; z32 1; z32 0]])
           2 0).
  - vm_compute. reflexivity.
  - exists 2. split; [cbn; tauto | lia].
  - vm_compute. lia.
  - vm_compute. lia.
  - reflexivity.
Defined.

Lemma single_label_broadcasts_mean_witness :
  nth 0 (nth 1 [[S754_finite false 11184811 (-25)];
                [S754_finite false 11184811 (-25)]] []) (@f0 _ binary32)
  = @fdiv _ binary32 (@tsum _ binary32 (@col _ binary32 batch_001 0))
      (@fcount _ binary32 (length batch_001)).
Proof.
  apply (@single_label_broadcasts_mean spec_float binary32 batch_001
           (firstn 2 batch_001)
           [[S754_finite false 11184811 (-25)]; [S754_finite false 11184811 (-25)]]
           [0; 0; 0]
           [[z32 1; z32 1]; [z32 1; z32 1]; [z32 0; z32 0]] 1 0).
  - vm_compute. reflexivity.
  - repeat constructor.
  - vm_compute. lia.
  - vm_compute. lia.
  - reflexivity.
Defined.

Lemma unpopulated_last_cluster_raises_witness :
  exists msg,
    @kmeans_iter _ binary32 batch_0111 (firstn 3 batch_0111)
    = Raise (RuntimeError msg).
Proof.
  apply (@unpopulated_last_cluster_raises spec_float binary32 batch_0111
           (firstn 3 batch_0111)
           [[z32 0; z32 1; z32 1]; [z32 1; z32 0; z32 0];
            [z32 1; z32 0; z32 0]; [z32 1; z32 0; z32 0]]
           [0; 1; 1; 1]).
  - vm_compute. reflexivity.
  - vm_compute. reflexivity.
  - exists 1. split; [cbn; tauto | lia].
  - vm_compute. repeat constructor.
  - vm_compute. lia.
Defined.

(** ** The batches of an epoch *)

Section Chunks.
Variable b : nat.
Hypothesis b_pos : 0 < b.

Lemma chunks_fuel_concat (fuel : nat) (l : list nat) :
  length l <= fuel -> concat (chunks_fuel b fuel l) = l.
Proof.
  revert l. induction fuel as [|fuel IH]; intros l Hl.
  - destruct l; [reflexivity | cbn in Hl; lia].
  - destruct l as [|a l]; [reflexivity|].
    cbn [chunks_fuel concat]. rewrite IH.
    + apply firstn_skipn.
    + rewrite length_skipn. cbn [length] in *. lia.
Qed.

Lemma chunks_fuel_sizes (fuel : nat) (l : list nat) :
  Forall (fun c => 1 <= length c <= b) (chunks_fuel b fuel l).
Proof.
  revert l. induction fuel as [|fuel IH]; intros l; [constructor|].
  destruct l as [|a l]; [constructor|].
  cbn [chunks_fuel]. constructor; [|apply IH].
  rewrite length_firstn. cbn [length]. lia.
Qed.

Lemma chunks_fuel_full (fuel : nat) (l : list nat) (k : nat) :
  S k < length (chunks_fuel b fuel l) ->
  length (nth k (chunks_fuel b fuel l) []) = b.
Proof.
  revert l k. induction fuel as [|fuel IH]; intros l k; [cbn; lia|].
  destruct l as [|a l]; [cbn; lia|].
  cbn [chunks_fuel length]. intros Hk.
  destruct k as [|k].
  - cbn [nth]. rewrite length_firstn.
    destruct fuel as [|fuel']; [cbn in Hk; lia|].
    destruct (skipn b (a :: l)) as [|a' l'] eqn:E; [cbn in Hk; lia|].
    assert (length (skipn b (a :: l)) = S (length l')) as E' by now rewrite E.
    rewrite length_skipn in E'. lia.
  - cbn [nth]. apply IH. lia.
Qed.

Lemma chunks_fuel_single (fuel : nat) (l : list nat) (q : nat) :
  length l <= fuel -> length l = q * b + 1 ->
  exists c, In c (chunks_fuel b fuel l) /\ length c = 1.
Proof.
  revert l q. induction fuel as [|fuel IH]; intros l q Hl Hq; [lia|].
  destruct l as [|a l]; [cbn in Hq; lia|].
  cbn [chunks_fuel]. destruct q as [|q].
  - exists (firstn b (a :: l)). split; [now left|].
    rewrite length_firstn. lia.
  - destruct (IH (skipn b (a :: l)) q) as (c & Hc & Hc1).
    + rewrite length_skipn. cbn [length] in *. lia.
    + rewrite length_skipn. lia.
    + exists c. split; [now right | exact Hc1].
Qed.

End Chunks.

Section Batches.
Context {FD : Type} {SD : Scalar FD} {F : Type} {SF : Scalar F}.
Variable to_float : FD -> F.
Variables (K batch_size : nat) (eps beta : F).
Variable flog : F -> F.
Variable G : Type.
Variable predict_proba : G -> matrix F -> result (matrix F).
Variable fit : G -> matrix F -> result G.
Variables means_ covariances_ : G -> matrix F.
Variable Theta : Type.
Variable forward : Theta -> matrix F -> matrix F.
Variable sgd_step : Theta -> matrix F -> F -> Theta.
Variable requires_grad : bool.
Variable dataset : list (Z * list FD).
Variable sampler : nat -> list nat.

#[local] Abbreviation step_of :=
  (train_step to_float K eps beta flog predict_proba fit means_ covariances_
     forward sgd_step requires_grad).
#[local] Abbreviation batches_of :=
  (run_batches to_float K eps beta flog predict_proba fit means_ covariances_
     forward sgd_step requires_grad dataset).
#[local] Abbreviation epoch_of :=
  (run_epoch to_float K batch_size eps beta flog predict_proba fit means_
     covariances_ forward sgd_step requires_grad dataset sampler).

Lemma getitem_ok (d : list (Z * list FD)) (i : Z) (v : list FD) :
  getitem d i = Ok v -> In (i, v) d.
Proof.
  induction d as [|[k w] d IH]; cbn; [discriminate|].
  destruct (Z.eqb_spec k i) as [->|E].
  - intros [= ->]. now left.
  - intros H. right. now apply IH.
Qed.

Lemma getitem_raises (d : list (Z * list FD)) (i : Z) (e : exn) :
  getitem d i = Raise e -> e = KeyError i /\ ~ In i (map fst d).
Proof.
  induction d as [|[k w] d IH]; cbn.
  - intros [= <-]. split; [reflexivity | tauto].
  - destruct (Z.eqb_spec k i) as [->|E]; [discriminate|].
    intros H. apply IH in H. destruct H as [-> H]. split; [reflexivity|].
    intros [E'|E']; [contradiction | now apply H].
Qed.

Lemma getitem_absent (d : list (Z * list FD)) (i : Z) :
  ~ In i (map fst d) -> getitem d i = Raise (KeyError i).
Proof.
  intros H. destruct (getitem d i) as [v|e] eqn:E.
  - apply getitem_ok in E. exfalso. apply H.
    change i with (fst (i, v)). now apply in_map.
  - apply getitem_raises in E. now destruct E as [-> _].
Qed.

Lemma fetch_length (idx : list nat) (X : matrix FD) :
  fetch dataset idx = Ok X -> length X = length idx.
Proof.
  revert X. induction idx as [|i idx IH]; intros X; cbn.
  - now intros [= <-].
  - destruct (getitem dataset (Z.of_nat i)) as [r|e]; [|discriminate]. cbn.
    destruct (fetch dataset idx) as [rest|e]; [|discriminate]. cbn.
    intros [= <-]. cbn. f_equal. now apply IH.
Qed.

Lemma fetch_rows (idx : list nat) (X : matrix FD) :
  fetch dataset idx = Ok X ->
  Forall2 (fun i r => In (Z.of_nat i, r) dataset) idx X.
Proof.
  revert X. induction idx as [|i idx IH]; intros X; cbn.
  - intros [= <-]. constructor.
  - destruct (getitem dataset (Z.of_nat i)) as [r|e] eqn:E; [|discriminate]. cbn.
    destruct (fetch dataset idx) as [rest|e]; [|discriminate]. cbn.
    intros [= <-]. constructor; [now apply getitem_ok | now apply IH].
Qed.

Lemma fetch_absent (idx : list nat) (i : nat) :
  In i idx -> ~ In (Z.of_nat i) (map fst dataset) ->
  exists j, In j idx /\ ~ In (Z.of_nat j) (map fst dataset) /\
            fetch dataset idx = Raise (KeyError (Z.of_nat j)).
Proof.
  intros Hin Hi. induction idx as [|a idx IH]; [contradiction|].
  cbn [fetch]. destruct (getitem dataset (Z.of_nat a)) as [r|e] eqn:E.
  - cbn [bind]. destruct Hin as [->|Hin].
    + rewrite getitem_absent in E by exact Hi. discriminate.
    + destruct (IH Hin) as (j & Hj & Hjk & ->).
      exists j. split; [now right|]. split; [exact Hjk | reflexivity].
  - apply getitem_raises in E. destruct E as [-> Ha].
    exists a. split; [now left|]. split; [exact Ha | reflexivity].
Qed.

(** The loop over the batches raises as soon as the body raises on one of
    them, whatever the state then is. *)
Lemma run_batches_raises (bs : list (list nat)) (b : list nat) :
  In b bs ->
  (forall s, exists e,
      (X_batch <- fetch dataset b ;; step_of s X_batch) = Raise e) ->
  forall s, exists e, batches_of s bs = Raise e.
Proof.
  intros Hin Hb. induction bs as [|b0 bs IH]; [contradiction|].
  intros s. cbn [run_batches].
  destruct Hin as [->|Hin].
  - destruct (Hb s) as [e He].
    destruct (fetch dataset b) as [X|e']; cbn [bind] in *.
    + rewrite He. cbn. eauto.
    + eauto.
  - destruct (fetch dataset b0) as [X|e']; cbn [bind]; [|eauto].
    destruct (step_of s X) as [s1|e']; cbn [bind]; [|eauto].
    now apply IH.
Qed.

Lemma run_epoch_raises (s : @train_state F G Theta) (epoch : nat) (b : list nat) :
  In b (batch_indices batch_size dataset sampler epoch) ->
  (forall s, exists e,
      (X_batch <- fetch dataset b ;; step_of s X_batch) = Raise e) ->
  exists e, epoch_of s epoch = Raise e.
Proof.
  intros Hin Hb. unfold run_epoch.
  destruct (@run_batches_raises _ b Hin Hb s) as [e ->]. cbn. eauto.
Qed.

(** X7.  The batches of an epoch are consecutive pieces of the order in
    which the sampler draws the indices: together they are that order,
    there are [ceil (n / batch_size)] of them, none is empty, and all but
    the last have [batch_size] indices. *)
Theorem batches_partition_sampler_order (epoch : nat) :
  0 < batch_size ->
  length (sampler epoch) <= length dataset ->
  let bs := batch_indices batch_size dataset sampler epoch in
  concat bs = sampler epoch /\
  length bs = ceil_div (length (sampler epoch)) batch_size /\
  Forall (fun b => 1 <= length b <= batch_size) bs /\
  forall k, S k < length bs -> length (nth k bs []) = batch_size.
Proof.
  intros Hb Hl bs. unfold bs, batch_indices. split; [|split; [|split]].
  - now apply chunks_fuel_concat.
  - now apply chunks_fuel_length.
  - now apply chunks_fuel_sizes.
  - intros k. now apply chunks_fuel_full.
Qed.

(** X8.  The data loader looks its indices up as keys of the dictionary.
    If an index drawn in an epoch is not a node id of the data set, the
    epoch does not complete: fetching the batch of the first such index
    raises [KeyError], unless a step on an earlier batch has already
    raised. *)
Theorem epoch_raises_on_missing_key (s : @train_state F G Theta) (epoch i : nat) :
  0 < batch_size ->
  length (sampler epoch) <= length dataset ->
  In i (sampler epoch) ->
  ~ In (Z.of_nat i) (map fst dataset) ->
  (exists b j, In b (batch_indices batch_size dataset sampler epoch) /\
               fetch dataset b = Raise (KeyError (Z.of_nat j))) /\
  exists e, epoch_of s epoch = Raise e.
Proof.
  intros Hb Hl Hi Hk.
  assert (exists b, In b (batch_indices batch_size dataset sampler epoch) /\ In i b)
    as (b & Hbin & Hib).
  { rewrite <- (@chunks_fuel_concat batch_size Hb (length dataset) (sampler epoch) Hl)
      in Hi.
    apply in_concat in Hi. destruct Hi as (b & H1 & H2). eauto. }
  destruct (@fetch_absent b i Hib Hk) as (j & _ & _ & Hf).
  split; [now exists b, j|].
  apply (@run_epoch_raises s epoch b Hbin).
  intros s0. rewrite Hf. cbn. eauto.
Qed.

End Batches.

Section SingleSampleBatch.
Context {FD : Type} {SD : Scalar FD} {F : Type} {SF : Scalar F}.
Variable to_float : FD -> F.
Variables (K batch_size : nat) (eps beta : F).
Variable flog : F -> F.
Variable G : Type.
Variable predict_proba : G -> matrix F -> result (matrix F).
Variable fit : G -> matrix F -> result G.
Variables means_ covariances_ : G -> matrix F.
Variable Theta : Type.
Variable forward : Theta -> matrix F -> matrix F.
Variable sgd_step : Theta -> matrix F -> F -> Theta.
Variable requires_grad : bool.
Variable dataset : list (Z * list FD).
Variable sampler : nat -> list nat.
Hypothesis fsub_diag_not_pos : forall a : FD, flt f0 (fsub a a) = false.

Lemma train_step_single_sample (s : @train_state F G Theta) (r : list FD) :
  1 <= K ->
  train_step to_float K eps beta flog predict_proba fit means_ covariances_
    forward sgd_step requires_grad s [r] = Raise (NameError "vector").
Proof.
  intros HK. unfold train_step, KMeans. cbn [kmeans_loop].
  rewrite (@pass_equal_rows FD SD fsub_diag_not_pos [r] (firstn K [r]) r).
  - reflexivity.
  - discriminate.
  - destruct K; [lia | discriminate].
  - repeat constructor.
  - destruct K as [|[|k]]; [lia | |]; repeat constructor.
Qed.

(** X9.  When the number of samples is one more than a multiple of the
    batch size, no epoch completes: its last batch has a single sample, on
    which [KMeans] raises [NameError], unless an earlier batch has already
    raised. *)
Theorem epoch_with_single_sample_batch_raises
    (s : @train_state F G Theta) (epoch q : nat) :
  1 <= K -> 0 < batch_size ->
  length (sampler epoch) = length dataset ->
  length dataset = q * batch_size + 1 ->
  exists e,
    run_epoch to_float K batch_size eps beta flog predict_proba fit means_
      covariances_ forward sgd_step requires_grad dataset sampler s epoch
    = Raise e.
Proof.
  intros HK Hb Hs Hq.
  destruct (@chunks_fuel_single batch_size Hb (length dataset) (sampler epoch) q)
    as (b & Hin & H1); [lia | lia |].
  apply (@run_epoch_raises FD SD F SF to_float K batch_size eps beta flog G
           predict_proba fit means_ covariances_ Theta forward sgd_step
           requires_grad dataset sampler s epoch b Hin).
  intros s0. destruct (fetch dataset b) as [X|e] eqn:E; cbn [bind]; [|eauto].
  apply fetch_length in E. rewrite H1 in E.
  destruct X as [|r [|r' X]]; try discriminate.
  rewrite train_step_single_sample by exact HK. eauto.
Qed.

End SingleSampleBatch.

Section SmallBatch.
Context {FD : Type} {SD : Scalar FD} {F : Type} {SF : Scalar F}.
Variable to_float : FD -> F.
Variables (K : nat) (eps beta : F).
Variable flog : F -> F.
Variable G : Type.
Variable predict_proba : G -> matrix F -> result (matrix F).
Variable fit : G -> matrix F -> result G.
Variables means_ covariances_ : G -> matrix F.
Variable Theta : Type.
Variable forward : Theta -> matrix F -> matrix F.
Variable sgd_step : Theta -> matrix F -> F -> Theta.
Variable requires_grad : bool.

(** X10.  A training step on a batch of at least two and fewer than [K]
    samples raises [RuntimeError] when [KMeans] completes on it: the
    affinities then have as many columns as the batch has samples, the
    posteriors of the mixture have [K], and their product in
    [compute_gamma] cannot be broadcast. *)
Theorem small_batch_shape_mismatch (s : @train_state F G Theta)
    (X_batch : matrix FD) (l : list nat) (pi : matrix FD) (p : matrix F) :
  KMeans X_batch K 10 = Ok (l, pi) ->
  2 <= length X_batch -> length X_batch < K ->
  predict_proba (gmm s) (forward (params s) (map (map to_float) X_batch)) = Ok p ->
  rect (length X_batch) K p ->
  exists msg,
    train_step to_float K eps beta flog predict_proba fit means_ covariances_
      forward sgd_step requires_grad s X_batch = Raise (RuntimeError msg).
Proof.
  intros Hk H2 HK Hp Hr. unfold train_step. rewrite Hk. cbn [bind].
  unfold compute_loss. rewrite Hp. cbn [bind].
  assert (rect (length X_batch) (length X_batch) pi) as Hpi.
  { unfold KMeans in Hk. apply kmeans_loop_shapes in Hk.
    destruct Hk as [[E _]|(_ & c0 & c' & Hl & Hit)]; [discriminate|].
    apply kmeans_iter_shapes in Hit. destruct Hit as (_ & _ & _ & _ & _ & R).
    rewrite Hl, length_firstn in R.
    now replace (Nat.min K (length X_batch)) with (length X_batch) in R by lia. }
  unfold compute_gamma, broadcast2.
  pose proof (rect_map to_float Hpi) as Hpi'.
  assert (rect (length X_batch) K (clamp_min eps p)) as Hr'
    by (unfold clamp_min; now apply rect_map).
  destruct Hpi' as [L1 R1]. destruct Hr' as [L2 R2].
  rewrite L1, L2.
  rewrite (@rect_ncols F (length X_batch) (length X_batch)) by (try split; auto; lia).
  rewrite (@rect_ncols F (length X_batch) K) by (try split; auto; lia).
  unfold bdim at 1. rewrite Nat.eqb_refl. cbn [bind].
  unfold bdim.
  destruct (Nat.eqb_spec (length X_batch) K); [lia|].
  destruct (Nat.eqb_spec (length X_batch) 1); [lia|].
  destruct (Nat.eqb_spec K 1); [lia|].
  cbn. eauto.
Qed.

End SmallBatch.

Lemma batches_partition_sampler_order_witness :
  let bs := batch_indices 3 toy_dataset toy_sampler 0 in
  concat bs = toy_sampler 0 /\
  length bs = ceil_div (length (toy_sampler 0)) 3 /\
  Forall (fun b => 1 <= length b <= 3) bs /\
  forall k, S k < length bs -> length (nth k bs []) = 3.
Proof.
  apply (@batches_partition_sampler_order Q 3 toy_dataset toy_sampler 0).
  - lia.
  - vm_compute. lia.
Defined.

Lemma epoch_raises_on_missing_key_witness :
  (exists b j, In b (batch_indices 2 dataset_gap sampler_gap 0) /\
               fetch dataset_gap b = Raise (KeyError (Z.of_nat j))) /\
  exists e,
    @run_epoch Q exact Q exact (fun a => a) 2 2 toy_eps toy_beta log_stub toy_gmm
      toy_predict_proba toy_fit toy_means toy_covariances
      unit (fun _ X => X) (fun t _ _ => t) true dataset_gap sampler_gap
      toy_state0 0 = Raise e.
Proof.
  apply (@epoch_raises_on_missing_key Q exact Q exact (fun a => a) 2 2
           toy_eps toy_beta log_stub toy_gmm
           toy_predict_proba toy_fit toy_means toy_covariances
           unit (fun _ X => X) (fun t _ _ => t) true dataset_gap sampler_gap
           toy_state0 0 2).
  - lia.
  - vm_compute. lia.
  - cbn. tauto.
  - cbn. intros [H|[H|[H|[]]]]; discriminate H.
Defined.

Lemma epoch_with_single_sample_batch_raises_witness :
  exists e,
    @run_epoch Q exact Q exact (fun a => a) 2 2 toy_eps toy_beta log_stub toy_gmm
      toy_predict_proba toy_fit toy_means toy_covariances
      unit (fun _ X => X) (fun t _ _ => t) true toy_dataset toy_sampler
      toy_state0 0 = Raise e.
Proof.
  apply (@epoch_with_single_sample_batch_raises Q exact Q exact (fun a => a) 2 2
           toy_eps toy_beta log_stub toy_gmm
           toy_predict_proba toy_fit toy_means toy_covariances
           unit (fun _ X => X) (fun t _ _ => t) true toy_dataset toy_sampler
           exact_fsub_diag_not_pos toy_state0 0 2).
  - lia.
  - lia.
  - reflexivity.
  - reflexivity.
Defined.

Lemma small_batch_shape_mismatch_witness :
  exists msg,
    @train_step Q exact Q exact (fun a => a) 3 toy_eps toy_beta log_stub unit
      uniform_predict_proba (fun g _ => Ok g) (fun _ => []) (fun _ => [])
      unit (fun _ X => X) (fun t _ _ => t) true uniform_state batch_pair
    = Raise (RuntimeError msg).
Proof.
  apply (@small_batch_shape_mismatch Q exact Q exact (fun a => a) 3
           toy_eps toy_beta log_stub unit
           uniform_predict_proba (fun g _ => Ok g) (fun _ => []) (fun _ => [])
           unit (fun _ X => X) (fun t _ _ => t) true uniform_state batch_pair
           [0; 1] [[1; 0]; [0; 1]]%Q [[1 # 3; 1 # 3; 1 # 3]; [1 # 3; 1 # 3; 1 # 3]]%Q).
  - vm_compute. reflexivity.
  - vm_compute. lia.
  - vm_compute. lia.
  - reflexivity.
  - split; [reflexivity | repeat constructor].
Defined.

(** ** The end of a training step *)

Section TrainingStepRaises.
Context {FD : Type} {SD : Scalar FD} {F : Type} {SF : Scalar F}.
Variable to_float : FD -> F.
Variables (K batch_size num_epochs : nat) (eps beta : F).
Variable flog : F -> F.
Variable G : Type.
Variable predict_proba : G -> matrix F -> result (matrix F).
Variable fit : G -> matrix F -> result G.
Variables means_ covariances_ : G -> matrix F.
Variable Theta : Type.
Variable forward : Theta -> matrix F -> matrix F.
Variable sgd_step : Theta -> matrix F -> F -> Theta.
Variable requires_grad : bool.
Variable dataset : list (Z * list FD).
Variable sampler : nat -> list nat.

#[local] Abbreviation step_on :=
  (train_step to_float K eps beta flog predict_proba fit means_ covariances_
     forward sgd_step requires_grad).





End TrainingStepRaises.



(** ** The range of the affinities *)






(** ** The data set read from the embedding file *)

Section DictEntries.
Context {A B : Type}.
Variable eqb : A -> A -> bool.
Hypothesis eqb_eq : forall x y, eqb x y = true <-> x = y.

Lemma dict_set_In (k : A) (v : B) (d : list (A * B)) (kv : A * B) :
  In kv (dict_set eqb k v d) -> kv = (k, v) \/ In kv d.
Proof.
  induction d as [|[k0 v0] d IH]; cbn.
  - intros [<-|[]]. now left.
  - destruct (eqb k0 k); cbn.
    + intros [<-|H]; [now left | right; now right].
    + intros [<-|H]; [right; now left|].
      apply IH in H. destruct H as [->|H]; [now left | right; now right].
Qed.

Lemma dict_set_NoDup (k : A) (v : B) (d : list (A * B)) :
  NoDup (map fst d) -> NoDup (map fst (dict_set eqb k v d)).
Proof.
  induction d as [|[k0 v0] d IH]; cbn; intros H.
  - constructor; [tauto | constructor].
  - inversion H as [|? ? Hn Hd]; subst.
    destruct (eqb k0 k) eqn:E; cbn.
    + apply eqb_eq in E. subst. now constructor.
    + constructor; [|now apply IH].
      intros Hin. apply (dict_set_keys eqb eqb_eq) in Hin.
      destruct Hin as [->|Hin]; [|contradiction].
      assert (eqb k k = true) as E' by now apply eqb_eq. congruence.
Qed.

Lemma dict_set_length (k : A) (v : B) (d : list (A * B)) :
  length (dict_set eqb k v d) <= S (length d).
Proof.
  induction d as [|[k0 v0] d IH]; cbn; [lia|].
  destruct (eqb k0 k); cbn; lia.
Qed.

End DictEntries.

Section SortedItems.
Context {B : Type}.

Lemma insert_sorted_In (kv x : Z * B) (l : list (Z * B)) :
  In x (insert_sorted kv l) <-> x = kv \/ In x l.
Proof.
  induction l as [|kv' l IH]; cbn.
  - intuition congruence.
  - destruct (fst kv <=? fst kv')%Z; cbn; [intuition congruence|].
    rewrite IH. intuition congruence.
Qed.

Lemma insert_sorted_length (kv : Z * B) (l : list (Z * B)) :
  length (insert_sorted kv l) = S (length l).
Proof.
  induction l as [|kv' l IH]; cbn; [reflexivity|].
  destruct (fst kv <=? fst kv')%Z; cbn; [reflexivity | now rewrite IH].
Qed.

Lemma sorted_items_In (x : Z * B) (d : list (Z * B)) :
  In x (sorted_items d) <-> In x d.
Proof.
  unfold sorted_items. induction d as [|kv d IH]; cbn; [tauto|].
  rewrite insert_sorted_In, IH. intuition congruence.
Qed.

Lemma sorted_items_length (d : list (Z * B)) :
  length (sorted_items d) = length d.
Proof.
  unfold sorted_items. induction d as [|kv d IH]; cbn; [reflexivity|].
  now rewrite insert_sorted_length, IH.
Qed.

Lemma insert_sorted_sorted (kv : Z * B) (l : list (Z * B)) :
  StronglySorted (fun a b => (fst a < fst b)%Z) l ->
  ~ In (fst kv) (map fst l) ->
  StronglySorted (fun a b => (fst a < fst b)%Z) (insert_sorted kv l).
Proof.
  induction 1 as [|kv' l Hs IH Hall]; intros Hn; cbn.
  - constructor; constructor.
  - destruct (Z.leb_spec (fst kv) (fst kv')) as [L|L].
    + assert (fst kv < fst kv')%Z as L'.
      { destruct (Z.eq_dec (fst kv) (fst kv')) as [E|E]; [|lia].
        exfalso. apply Hn. left. now symmetry. }
      constructor; [now constructor|].
      constructor; [exact L'|].
      eapply Forall_impl; [|exact Hall]. cbn. intros; lia.
    + constructor.
      * apply IH. intros H. apply Hn. now right.
      * apply Forall_forall. intros y Hy. apply insert_sorted_In in Hy.
        destruct Hy as [->|Hy]; [exact L|].
        rewrite Forall_forall in Hall. now apply Hall.
Qed.

Lemma sorted_items_sorted (d : list (Z * B)) :
  NoDup (map fst d) ->
  StronglySorted (fun a b => (fst a < fst b)%Z) (sorted_items d).
Proof.
  unfold sorted_items. induction d as [|kv d IH]; cbn; intros H.
  - constructor.
  - inversion H as [|? ? Hn Hd]; subst.
    apply insert_sorted_sorted; [now apply IH|].
    intros Hin. apply Hn. apply in_map_iff in Hin.
    destruct Hin as (y & Hy & Hin).
    apply (proj1 (sorted_items_In y d)) in Hin.
    rewrite <- Hy. now apply in_map.
Qed.

End SortedItems.

Section DataSet.
Context {FD : Type} {F : Type}.
Variable to_float : FD -> F.
Variable py_int : string -> option Z.
Variable np_float : string -> option FD.

Lemma parse_floats_length (ws : list string) (v : list FD) :
  parse_floats np_float ws = Ok v -> length v = length ws.
Proof.
  revert v. induction ws as [|w ws IH]; intros v; cbn.
  - now intros [= <-].
  - destruct (np_float w); [|discriminate].
    destruct (parse_floats np_float ws) as [rest|e]; [|discriminate].
    cbn. intros [= <-]. cbn. f_equal. now apply IH.
Qed.

Lemma dict_of_pairs_entries (rows : list (list string))
    (d d' : list (string * string)) :
  dict_of_pairs rows d = Ok d' ->
  length d' <= length d + length rows /\
  forall k s, In (k, s) d' -> In (k, s) d \/ In [k; s] rows.
Proof.
  revert d. induction rows as [|r rows IH]; intros d; cbn.
  - intros [= <-]. split; [lia | auto].
  - destruct r as [|k [|v [|w r]]]; try discriminate.
    intros H. apply IH in H. destruct H as [Hl H].
    pose proof (dict_set_length String.eqb k v d) as Hl'.
    split; [lia|]. intros k0 s0 Hin.
    destruct (H k0 s0 Hin) as [Hd|Hr]; [|right; now right].
    apply dict_set_In in Hd. destruct Hd as [[= -> ->]|Hd]; [|now left].
    right. now left.
Qed.

Lemma convert_items_entries (items : list (string * string))
    (d d' : list (Z * list FD)) :
  convert_items py_int np_float items d = Ok d' ->
  length d' <= length d + length items /\
  (NoDup (map fst d) -> NoDup (map fst d')) /\
  (forall k, In k (map fst d) -> In k (map fst d')) /\
  (forall num, In num (map fst items) ->
     exists k, py_int num = Some k /\ In k (map fst d')) /\
  (forall k v, In (k, v) d' ->
     In (k, v) d \/
     exists num s, In (num, s) items /\ py_int num = Some k /\
                   vectorize np_float s = Ok v).
Proof.
  revert d. induction items as [|[num s] items IH]; intros d; cbn.
  - intros [= <-]. split; [lia|]. split; [auto|]. split; [auto|].
    split; [contradiction | auto].
  - destruct (py_int num) as [k|] eqn:Ek; [|discriminate].
    destruct (vectorize np_float s) as [vec|e] eqn:Ev; [|discriminate].
    cbn [bind]. intros H. apply IH in H.
    destruct H as (Hl & Hnd & Hkeys & Hnum & Hent).
    pose proof (dict_set_length Z.eqb k vec d) as Hl'.
    split; [lia|]. split; [|split; [|split]].
    + intros Hd. apply Hnd. now apply (dict_set_NoDup Z.eqb Z.eqb_eq).
    + intros k0 Hk0. apply Hkeys. apply (dict_set_keys Z.eqb Z.eqb_eq). now right.
    + intros num0 [<-|Hin]; [|now apply Hnum].
      exists k. split; [exact Ek|]. apply Hkeys.
      apply (dict_set_keys Z.eqb Z.eqb_eq). now left.
    + intros k0 v0 Hin. destruct (Hent k0 v0 Hin) as [Hd|(n1 & s1 & H1 & H2 & H3)].
      * apply dict_set_In in Hd. destruct Hd as [[= -> ->]|Hd]; [|now left].
        right. exists num, s. split; [now left | now split].
      * right. exists n1, s1. split; [now right | now split].
Qed.

(** The part of a row after its first space holds the fields after the
    first. *)
Lemma split_space_1_rest (row k rest : string) :
  split_space_1 row = [k; rest] -> fields row = S (fields rest).
Proof.
  unfold split_space_1, fields.
  pose proof (split_space_once row) as H.
  destruct (split_once row) as [a [b|]]; [|discriminate].
  intros [= -> ->]. now rewrite H.
Qed.

Lemma skipgram2dict_sorted (skipgram : list string) (ds : list (Z * list FD)) :
  skipgram2dict py_int np_float skipgram = Ok ds ->
  StronglySorted (fun a b => (fst a < fst b)%Z) ds.
Proof.
  unfold skipgram2dict.
  destruct (dict_of_pairs (map split_space_1 skipgram) []) as [d|e];
    [|discriminate]. cbn [bind].
  destruct (convert_items py_int np_float d []) as [d'|e] eqn:Ec;
    [|discriminate]. cbn [bind]. intros [= <-].
  apply convert_items_entries in Ec. destruct Ec as (_ & Hnd & _).
  apply sorted_items_sorted, Hnd. constructor.
Qed.

(** X12.  The data set built by [skipgram2dict] is ordered by strictly
    increasing node id, so its ids are distinct; it has at most one entry
    per row; the id of every row is one of its keys; and every entry comes
    from a row: the key is [int] of the row's first field and the value is
    [vectorize] of the rest of the row, with one number for each of the
    other fields. *)
Theorem skipgram2dict_sorted_by_node_id
    (skipgram : list string) (ds : list (Z * list FD)) :
  skipgram2dict py_int np_float skipgram = Ok ds ->
  StronglySorted (fun a b => (fst a < fst b)%Z) ds /\
  length ds <= length skipgram /\
  (forall row, In row skipgram ->
     exists k, py_int (node_id row) = Some k /\ In k (map fst ds)) /\
  (forall k v, In (k, v) ds ->
     exists row rest,
       In row skipgram /\ split_space_1 row = [node_id row; rest] /\
       py_int (node_id row) = Some k /\ vectorize np_float rest = Ok v /\
       length v = fields row - 1).
Proof.
  intros H. split; [exact (@skipgram2dict_sorted skipgram ds H)|].
  unfold skipgram2dict in H.
  destruct (dict_of_pairs (map split_space_1 skipgram) []) as [d|e] eqn:Ed;
    [|discriminate]. cbn [bind] in H.
  destruct (convert_items py_int np_float d []) as [d'|e] eqn:Ec;
    [|discriminate]. cbn [bind] in H. injection H as <-.
  pose proof (dict_of_pairs_keys _ _ Ed) as [_ Hrows].
  apply dict_of_pairs_entries in Ed. destruct Ed as [Hl1 Hent1].
  apply convert_items_entries in Ec.
  destruct Ec as (Hl2 & _ & _ & Hnum & Hent2).
  rewrite length_map in Hl1. cbn [length] in Hl1, Hl2.
  split; [rewrite sorted_items_length; lia|]. split.
  - intros row Hin.
    destruct (Hrows (split_space_1 row)) as (k & v & Hkv & Hk);
      [now apply in_map|].
    destruct (split_space_1_pair _ Hkv) as [_ Hid].
    destruct (Hnum k Hk) as (z & Hz & Hzin).
    exists z. rewrite Hid. split; [exact Hz|].
    apply in_map_iff in Hzin. destruct Hzin as (y & Hy & Hyin).
    rewrite <- Hy. apply in_map. now apply (proj2 (sorted_items_In y d')).
  - intros k v Hin. apply (proj1 (sorted_items_In (k, v) d')) in Hin.
    destruct (Hent2 k v Hin) as [[]|(num & s & H1 & H2 & H3)].
    destruct (Hent1 num s H1) as [[]|Hr].
    apply in_map_iff in Hr. destruct Hr as (row & Hrow & Hrin).
    destruct (split_space_1_pair _ Hrow) as [_ Hid].
    exists row, s. split; [exact Hrin|]. rewrite Hid.
    split; [exact Hrow|]. split; [exact H2|]. split; [exact H3|].
    rewrite (split_space_1_rest _ Hrow). unfold vectorize in H3.
    apply parse_floats_length in H3. unfold fields. lia.
Qed.

Lemma FloatTensor_rect (rows : list (list FD)) (x : matrix F) :
  FloatTensor to_float rows = Ok x ->
  x = map (map to_float) rows /\
  exists D, Forall (fun r => length r = D) rows /\ rect (length rows) D x.
Proof.
  unfold FloatTensor. destruct rows as [|r rows].
  - intros [= <-]. split; [reflexivity|]. exists 0.
    split; [constructor|]. split; [reflexivity | constructor].
  - destruct (forallb _ rows) eqn:E; [|discriminate]. intros [= <-].
    split; [reflexivity|]. exists (length r).
    assert (Forall (fun r' => length r' = length r) (r :: rows)) as H.
    { constructor; [reflexivity|]. rewrite forallb_forall in E.
      apply Forall_forall. intros r' Hr'. apply Nat.eqb_eq. now apply E. }
    split; [exact H|].
    apply (rect_map to_float (m := r :: rows)). now split.
Qed.

(** X13.  When the cell that reads the file succeeds, [x] has one row for
    each entry of the data set, in the order of increasing node id, all
    embedding vectors have the same number [D] of coordinates, and [x] is
    an [n] by [D] tensor of their entries converted to single precision. *)
Theorem load_embeddings_rectangular
    (lines : list string) (dataset : list (Z * list FD)) (x : matrix F) :
  load_embeddings to_float py_int np_float lines = Ok (dataset, x) ->
  lines <> [] /\
  skipgram2dict py_int np_float (tl lines) = Ok dataset /\
  StronglySorted (fun a b => (fst a < fst b)%Z) dataset /\
  x = map (map to_float) (map snd dataset) /\
  exists D, Forall (fun kv => length (snd kv) = D) dataset /\
            rect (length dataset) D x.
Proof.
  unfold load_embeddings. destruct lines as [|header skipgram]; [discriminate|].
  destruct (skipgram2dict py_int np_float skipgram) as [ds|e] eqn:E;
    [|discriminate]. cbn [bind].
  destruct (FloatTensor to_float (map snd ds)) as [x0|e] eqn:Ex;
    [|discriminate]. cbn [bind]. intros [= <- <-].
  split; [discriminate|]. split; [exact E|].
  split; [exact (@skipgram2dict_sorted skipgram ds E)|].
  apply FloatTensor_rect in Ex. destruct Ex as (-> & D & HD & R).
  split; [reflexivity|]. exists D. rewrite length_map in R.
  split; [|exact R]. now rewrite Forall_map in HD.
Qed.

(** X14.  Reading the file fails with [IndexError] exactly when the file
    has no line at all; every other failure, of a row without a space, a
    first field that is not an integer, a field that is not a number or
    rows of different lengths, is a [ValueError]. *)
Theorem load_embeddings_errors (lines : list string) (e : exn) :
  load_embeddings to_float py_int np_float lines = Raise e ->
  (lines = [] /\ e = IndexError "pop from empty list") \/
  (lines <> [] /\ exists msg, e = ValueError msg).
Proof.
  unfold load_embeddings. destruct lines as [|header skipgram].
  - intros [= <-]. now left.
  - intros H. right. split; [discriminate|]. unfold skipgram2dict in H.
    destruct (dict_of_pairs (map split_space_1 skipgram) []) as [d|e1] eqn:Ed.
    + cbn [bind] in H.
      destruct (convert_items py_int np_float d []) as [d'|e2] eqn:Ec.
      * cbn [bind] in H. unfold FloatTensor in H.
        destruct (map snd (sorted_items d')) as [|r rows]; [discriminate|].
        destruct (forallb _ rows); [discriminate|].
        cbn in H. injection H as <-. eauto.
      * cbn in H. injection H as <-.
        now apply (convert_items_raises py_int np_float) in Ec.
    + cbn in H. injection H as <-. now apply dict_of_pairs_raises in Ed.
Qed.

End DataSet.

Lemma skipgram2dict_sorted_by_node_id_witness :
  StronglySorted (fun a b => (fst a < fst b)%Z)
    [(0%Z, [1; 2]%Q); (1%Z, [3; 4]%Q)] /\
  length [(0%Z, [1; 2]%Q); (1%Z, [3; 4]%Q)] <= length (tl file_short_rows) /\
  (forall row, In row (tl file_short_rows) ->
     exists k, int_literal (node_id row) = Some k /\
               In k (map fst [(0%Z, [1; 2]%Q); (1%Z, [3; 4]%Q)])) /\
  (forall k v, In (k, v) [(0%Z, [1; 2]%Q); (1%Z, [3; 4]%Q)] ->
     exists row rest,
       In row (tl file_short_rows) /\ split_space_1 row = [node_id row; rest] /\
       int_literal (node_id row) = Some k /\
       vectorize float_literal rest = Ok v /\
       length v = fields row - 1).
Proof.
  apply (@skipgram2dict_sorted_by_node_id Q int_literal float_literal
           (tl file_short_rows) [(0%Z, [1; 2]%Q); (1%Z, [3; 4]%Q)]).
  vm_compute. reflexivity.
Defined.

Lemma load_embeddings_rectangular_witness :
  file_short_rows <> [] /\
  skipgram2dict int_literal float_literal (tl file_short_rows)
    = Ok [(0%Z, [1; 2]%Q); (1%Z, [3; 4]%Q)] /\
  StronglySorted (fun a b => (fst a < fst b)%Z)
    [(0%Z, [1; 2]%Q); (1%Z, [3; 4]%Q)] /\
  [[1; 2]; [3; 4]]%Q
    = map (map (fun a : Q => a)) (map snd [(0%Z, [1; 2]%Q); (1%Z, [3; 4]%Q)]) /\
  exists D, Forall (fun kv : Z * list Q => length (snd kv) = D)
              [(0%Z, [1; 2]%Q); (1%Z, [3; 4]%Q)] /\
            rect (length [(0%Z, [1; 2]%Q); (1%Z, [3; 4]%Q)]) D [[1; 2]; [3; 4]]%Q.
Proof.
  apply (@load_embeddings_rectangular Q Q (fun a => a) int_literal float_literal
           file_short_rows [(0%Z, [1; 2]%Q); (1%Z, [3; 4]%Q)] [[1; 2]; [3; 4]]%Q).
  vm_compute. reflexivity.
Defined.

Lemma load_embeddings_errors_witness :
  (file_bad_row = [] /\
   ValueError "dictionary update sequence element has the wrong length; 2 is required"
   = IndexError "pop from empty list") \/
  (file_bad_row <> [] /\
   exists msg,
     ValueError "dictionary update sequence element has the wrong length; 2 is required"
     = ValueError msg).
Proof.
  apply (@load_embeddings_errors Q Q (fun a => a) int_literal float_literal
           file_bad_row).
  vm_compute. reflexivity.
Defined.


(** ** The updated mixing weights *)








